(** * DstRF: direct estimation of temporal response functions over the source space

    A shallow embedding of [dstrf/_model.py] and the properties its
    specification states about it.

    Conventions of the embedding.
    - numpy arrays of [float64] whose shapes are fixed by the model (lead
      field, covariances, coefficients) are MathComp matrices ['M[R]_(m, n)]
      over a real closed field [R]: exact real arithmetic, [np.dot] is [*m],
      [.T] is [^T], [np.trace] is [\tr].
    - arrays whose shapes are only known at run time (what [REG_Data] loads
      and slices) are sequences of rows, [seq (seq R)], and the shape checks
      numpy performs are written out.
    - Python exceptions are the [Raise] results of the [result] monad.
    - where a claim is about IEEE values themselves (division by a zero
      norm, NaN, infinity) the embedding uses either the four-way [npfloat]
      classification of a quotient or the kernel's binary64 floats. *)

From HB Require Import structures.
From Stdlib Require Import Reals Lra Epsilon FunctionalExtensionality Floats.

Ltac std_lra := lra.

From mathcomp Require Import boot order algebra.

Set Implicit Arguments.
Unset Strict Implicit.
Unset Printing Implicit Defensive.

Import Order.TTheory GRing.Theory Num.Theory.

Local Open Scope ring_scope.

(** ** Part I. The model *)

(** *** Exceptions *)

Inductive exn : Type :=
  | LinAlgError        (* scipy.linalg: matrix not positive definite, or singular *)
  | ValueError         (* shape mismatch, non-finite input, empty reduction *)
  | ZeroDivisionError  (* Python float division by zero *)
  | IndexError
  | KeyError
  | TypeError.

Inductive result (A : Type) : Type :=
  | Ok (a : A)
  | Raise (e : exn).

Arguments Ok {A} a.
Arguments Raise {A} e.

Definition bind {A B : Type} (r : result A) (f : A -> result B) : result B :=
  match r with
  | Ok a => f a
  | Raise e => Raise e
  end.

Notation "x <- r ;; k" := (bind r (fun x => k))
  (at level 100, r at next level, right associativity, only parsing).

Definition is_ok {A : Type} (r : result A) : bool :=
  if r is Ok _ then true else false.

Definition of_option {A : Type} (e : exn) (o : option A) : result A :=
  if o is Some a then Ok a else Raise e.

(** *** Quotients of [np.float64] scalars

    numpy does not raise on a division by zero of [float64] scalars: it
    returns an infinity or NaN (with a warning).  A scalar quotient is
    therefore classified. *)

Inductive npfloat (R : Type) : Type :=
  | Finite (r : R)
  | PosInf
  | NegInf
  | NaN.

Arguments Finite {R} r.
Arguments PosInf {R}.
Arguments NegInf {R}.
Arguments NaN {R}.

Section Scalars.

Variable R : rcfType.

(** [x / y] on [np.float64] scalars. *)
Definition np_true_divide (x y : R) : npfloat R :=
  if y != 0 then Finite (x / y)
  else if x == 0 then NaN
  else if 0 < x then PosInf else NegInf.

(** [r > 0] for a classified value (Python's comparison: false on NaN). *)
Definition np_positive (r : npfloat R) : bool :=
  match r with
  | Finite v => 0 < v
  | PosInf => true
  | NegInf | NaN => false
  end.

End Scalars.

(** *** Penalty and proximal operators *)

Section Proximal.

Variable R : rcfType.

(** [np.sign(x) * np.maximum(np.abs(x) - mu, 0)] on one entry. *)
Definition shrink1 (mu a : R) : R := Num.sg a * Num.max (`|a| - mu) 0.

(** [shrink(x, mu)]: soft thresholding, elementwise. *)
Definition shrink m n (x : 'M[R]_(m, n)) (mu : R) : 'M[R]_(m, n) :=
  map_mx (shrink1 mu) x.

(** [g(x, mu) = mu * np.sum(np.abs(x))]. *)
Definition g m n (x : 'M[R]_(m, n)) (mu : R) : R :=
  mu * \sum_i \sum_j `|x i j|.

(** [proxg(x, mu, tau) = shrink(x, mu * tau)]. *)
Definition proxg m n (x : 'M[R]_(m, n)) (mu tau : R) : 'M[R]_(m, n) :=
  shrink x (mu * tau).

End Proximal.

(** *** Dense linear algebra routines of [scipy.linalg] *)

Section LinearAlgebra.

Variable R : rcfType.

(** [linalg.cholesky(a, lower=True)]: the lower triangular factor with a
    positive diagonal, computed column by column.  Only the lower triangle
    of [a] is read.  It raises [LinAlgError] as soon as a pivot is not
    positive (LAPACK's [potrf] reporting a leading minor that is not
    positive definite). *)
Fixpoint cholesky (n : nat) : 'M[R]_n -> result 'M[R]_n :=
  match n with
  | 0 => fun A => Ok A
  | n'.+1 => fun A =>
      let A' : 'M[R]_(1 + n') := A in
      let a := A ord0 ord0 in
      if a <= 0 then Raise LinAlgError
      else
        let l := Num.sqrt a in
        let c := l^-1 *: dlsubmx A' in
        L' <- cholesky (drsubmx A' - c *m c^T) ;;
        Ok (block_mx (l%:M) 0 c L' : 'M[R]_(1 + n'))
  end.

(** [linalg.solve(a, b)] for finite inputs: the solution of [a x = b], or
    [LinAlgError] when [a] is singular. *)
Definition linalg_solve n m (A : 'M[R]_n) (B : 'M[R]_(n, m)) :
    result 'M[R]_(n, m) :=
  if A \in unitmx then Ok (invmx A *m B) else Raise LinAlgError.

(** Broadcasting products: [A * e] scales column [j] by [e[j]],
    [A * e[:, np.newaxis]] scales row [i] by [e[i]]. *)
Definition col_scale m n (A : 'M[R]_(m, n)) (e : 'rV[R]_n) : 'M[R]_(m, n) :=
  \matrix_(i, j) (A i j * e 0 j).

Definition row_scale m n (A : 'M[R]_(m, n)) (e : 'rV[R]_m) : 'M[R]_(m, n) :=
  \matrix_(i, j) (A i j * e 0 i).

End LinearAlgebra.

(** *** The per-source covariance update, pure numpy version *)

Section Gamma.

Variable R : rcfType.

(** [linalg.eig], restricted to what [_compute_gamma_i] keeps of it: the
    real parts of the eigenvalues and the eigenvectors (both calls are on
    real symmetric matrices, whose eigenpairs are real).  It is an external
    routine: a parameter of the model. *)
Variable eig : forall n, 'M[R]_n -> 'rV[R]_n * 'M[R]_n.

(** [_myinv(x)]: [y = zeros; y[x > 0] = 1 / x[x > 0]]. *)
Definition _myinv n (x : 'rV[R]_n) : 'rV[R]_n :=
  map_mx (fun a => if 0 < a then a^-1 else 0) x.

(** [e[e < 0] = 0]. *)
Definition clamp0 n (e : 'rV[R]_n) : 'rV[R]_n :=
  map_mx (fun a => if a < 0 then 0 else a) e.

(** [np.sqrt(e)]. *)
Definition np_sqrt n (e : 'rV[R]_n) : 'rV[R]_n := map_mx Num.sqrt e.

(** [_compute_gamma_i(z, x)], statement by statement. *)
Definition _compute_gamma_i n k (z : 'M[R]_n) (x : 'M[R]_(n, k)) : 'M[R]_n :=
  let: (e, v) := eig z in
  let e := clamp0 e in
  let temp := x^T *m v in
  let temp := temp^T *m temp in
  let e := np_sqrt e in
  let: (d, u) := eig (row_scale (col_scale temp e) e) in
  let d := clamp0 d in
  let d := np_sqrt d in
  let temp := col_scale v (_myinv e) *m u in
  col_scale temp d *m temp^T.

End Gamma.

(** *** Arrays that may hold infinities or NaN

    An array whose shape is fixed by the model but which may have been
    divided by zero: either a matrix of reals, or an array with at least one
    entry that is an infinity or NaN. *)

Inductive ndarray (R : Type) (m n : nat) : Type :=
  | Arr (A : 'M[R]_(m, n))
  | NonFinite.

Arguments Arr {R m n} A.
Arguments NonFinite {R m n}.

(** *** Construction of the model: [DstRF.__init__] *)

Record DstRF (R : Type) (K n : nat) : Type := {
  lead_field : 'M[R]_(K, n);
  lead_field_scaling : R;
  noise_covariance : 'M[R]_K;
  eta : npfloat R;
  init_sigma_b : ndarray R K K
}.

Section Construction.

Variable R : rcfType.

(** [linalg.norm(a, 2)] of an array with entries: the spectral norm, an
    external routine and a parameter of the model. *)
Variable norm2 : forall m n, 'M[R]_(m, n) -> R.

(** [linalg.norm(a, 2)]: on an array without entries the largest singular
    value is the maximum of an empty array, a [ValueError]. *)
Definition linalg_norm2 m n (A : 'M[R]_(m, n)) : result R :=
  if (m == 0) || (n == 0) then Raise ValueError else Ok (norm2 A).

(** [a /= s] with [s] a [np.float64]: dividing by zero does not raise, every
    entry becomes an infinity or NaN. *)
Definition np_idiv m n (A : 'M[R]_(m, n)) (s : R) : ndarray R m n :=
  if s != 0 then Arr (\matrix_(i, j) (A i j / s))
  else if (m == 0) || (n == 0) then Arr A
  else NonFinite.

(** The validation [scipy.linalg] routines run on their arguments
    ([check_finite=True]). *)
Definition check_finite m n (a : ndarray R m n) : result 'M[R]_(m, n) :=
  match a with
  | Arr A => Ok A
  | NonFinite => Raise ValueError
  end.

(** [noise + eta * P] with [eta] a [np.float64] that may be infinite or NaN. *)
Definition np_add_scaled m (noise : 'M[R]_m) (eta : npfloat R) (P : 'M[R]_m) :
    ndarray R m m :=
  match eta with
  | Finite e => Arr (noise + e *: P)
  | _ => if m == 0 then Arr noise else NonFinite
  end.

(** [DstRF.__init__vars]; [linalg.solve] is where a non-finite lead field is
    detected. *)
Definition __init__vars K n (lead_field : ndarray R K n) (noise : 'M[R]_K) :
    result ('M[R]_(K, n) * npfloat R * ndarray R K K) :=
  wf <- cholesky noise ;;
  G <- check_finite lead_field ;;
  Gtilde <- linalg_solve wf G ;;
  let eta := np_true_divide K%:R (\tr (Gtilde *m Gtilde^T)) in
  let sigma_b := np_add_scaled noise eta (G *m G^T) in
  Ok (G, eta, sigma_b).

(** [DstRF.__init__], on the lead field as the 2-d array of shape
    (sensors, sources * orientations) the constructor reshapes it to. *)
Definition __init__ K n (lead_field : 'M[R]_(K, n)) (noise_covariance : 'M[R]_K) :
    result (DstRF R K n) :=
  scaling <- linalg_norm2 lead_field ;;
  let G := np_idiv lead_field scaling in
  v <- __init__vars G noise_covariance ;;
  let: (G, eta, sigma_b) := v in
  Ok {| lead_field := G; lead_field_scaling := scaling;
        noise_covariance := noise_covariance; eta := eta;
        init_sigma_b := sigma_b |}.

End Construction.

(** *** The Champagne steps: [DstRF._solve] *)

(** Python scalars: [math.sqrt] raises on a negative argument, [/] on
    floats raises on a zero divisor. *)
Definition math_sqrt (R : rcfType) (a : R) : result R :=
  if a < 0 then Raise ValueError else Ok (Num.sqrt a).

Definition py_truediv (R : rcfType) (a b : R) : result R :=
  if b == 0 then Raise ZeroDivisionError else Ok (a / b).

(** Column [i * dc + j] of an array with [N * dc] columns. *)
Lemma blk_bound N dc (i : 'I_N) (j : 'I_dc) : (i * dc + j < N * dc)%N.
Proof.
apply: (@leq_trans (i.+1 * dc)%N); last by rewrite leq_mul2r ltn_ord orbT.
by rewrite mulSn addnC ltn_add2r.
Qed.

Definition blk_ord N dc (i : 'I_N) (j : 'I_dc) : 'I_(N * dc) :=
  Ordinal (blk_bound i j).

(** [a[:, i * dc:(i + 1) * dc]]. *)
Definition col_block (R : Type) K N dc (A : 'M[R]_(K, N * dc)) (i : 'I_N) :
    'M[R]_(K, dc) :=
  \matrix_(r, j) A r (blk_ord i j).

(** One trial of a loaded container, as [REG_Data.__iter__] yields it: its
    key, the sensor data and the covariate matrix. *)
Record trial (R : Type) (key : Type) (K P : nat) : Type := {
  trial_key : key;
  n_times : nat;
  meg : 'M[R]_(K, n_times);
  covariates : 'M[R]_(n_times, P)
}.

(** A [for] loop whose body may raise. *)
Definition for_loop (S I : Type) (body : S -> I -> result S) (s : seq I)
    (st : S) : result S :=
  foldl (fun acc i => st <- acc ;; body st i) (Ok st) s.

Section Solve.

Variable R : rcfType.
Variable eig : forall n, 'M[R]_n -> 'rV[R]_n * 'M[R]_n.

(** The Cython routine [compute_gamma_c(z, a, gamma)], which writes the new
    block into [gamma]: an external routine and a parameter of the model. *)
Variable compute_gamma_c : 'M[R]_3 -> 'M[R]_3 -> 'M[R]_3 -> result 'M[R]_3.

(** [_compute_gamma_ip(z, x, gamma)]; the result is the new content of
    [gamma]. *)
Definition _compute_gamma_ip T (z : 'M[R]_3) (x : 'M[R]_(3, T))
    (gamma : 'M[R]_3) : result 'M[R]_3 :=
  let a := x *m x^T in
  compute_gamma_c z a gamma.

(** The update of one source covariance block ("update Ti"): the new value
    of [gamma[i]].  In the last branch the exception object is built and
    dropped, [gamma[i]] stays as it is. *)
Definition update_gamma (dc T : nat) (use_optimized : bool) :
    'M[R]_dc -> 'M[R]_(dc, T) -> 'M[R]_dc -> result 'M[R]_dc :=
  match dc with
  | 1%N => fun z x gamma_i =>
      num <- math_sqrt ((x *m x^T) 0 0) ;;
      den <- math_sqrt (z 0 0) ;;
      q <- py_truediv num den ;;
      Ok q%:M
  | 3%N => fun z x gamma_i =>
      if use_optimized then _compute_gamma_ip z x gamma_i
      else Ok (_compute_gamma_i eig z x)
  | _ => fun z x gamma_i => Ok gamma_i
  end.

Variable key : eqType.
Variables (K N dc P : nat).

(** The state of the Champagne iterations of one trial: the list [gamma]
    and the array [sigma_b]. *)
Definition champagne_state : Type := ({ffun 'I_N -> 'M[R]_dc} * 'M[R]_K)%type.

(** The dictionaries [self.Gamma] and [self.Sigma_b]. *)
Record solve_state : Type := {
  Gamma : key -> option {ffun 'I_N -> 'M[R]_dc};
  Sigma_b : key -> option 'M[R]_K
}.

Definition dict_set (V : Type) (d : key -> option V) (k : key) (v : V) :
    key -> option V :=
  fun k' => if k' == k then Some v else d k'.

Variable lead_field : 'M[R]_(K, N * dc).
Variable noise_covariance : 'M[R]_K.
Variable use_optimized : bool.

(** The body of [for i in range(self.sources_n)]. *)
Definition source_step (lhat : 'M[R]_(K, N * dc)) (ytilde : 'M[R]_K)
    (st : champagne_state) (i : 'I_N) : result champagne_state :=
  let: (gamma, sigma_b) := st in
  let x := gamma i *m (ytilde^T *m col_block lhat i)^T in
  let z := (col_block lhat i)^T *m col_block lhat i in
  gamma_i <- update_gamma use_optimized z x (gamma i) ;;
  let gamma := [ffun k => if k == i then gamma_i else gamma k] in
  let sigma_b :=
    sigma_b + col_block lead_field i
                *m (gamma i *m (col_block lead_field i)^T) in
  Ok (gamma, sigma_b).

(** The body of [for it in range(n_iterc)]. *)
Definition champagne_step (yhat : 'M[R]_K) (st : champagne_state)
    (it : nat) : result champagne_state :=
  let: (gamma, sigma_b) := st in
  Lc <- cholesky sigma_b ;;
  lhat <- linalg_solve Lc lead_field ;;
  ytilde <- linalg_solve Lc yhat ;;
  let sigma_b := noise_covariance in
  for_loop (source_step lhat ytilde) (enum 'I_N) (gamma, sigma_b).

(** The body of [for meg, covariates, key in data], for the default [idx]
    (the whole trial). *)
Definition solve_trial (n_iterc : nat) (theta : 'M[R]_(N * dc, P))
    (self : solve_state) (tr : trial R key K P) : result solve_state :=
  let y := meg tr - lead_field *m theta *m (covariates tr)^T in
  let Cb := y *m y^T in
  yhat <- cholesky Cb ;;
  gamma <- of_option KeyError (Gamma self (trial_key tr)) ;;
  sigma_b <- of_option KeyError (Sigma_b self (trial_key tr)) ;;
  st <- for_loop (champagne_step yhat) (iota 0 n_iterc) (gamma, sigma_b) ;;
  let: (gamma, sigma_b) := st in
  Ok {| Gamma := dict_set (Gamma self) (trial_key tr) gamma;
        Sigma_b := dict_set (Sigma_b self) (trial_key tr) sigma_b |}.

(** [DstRF._solve(data, theta)]; [data] is the sequence of trials
    [REG_Data.__iter__] yields. *)
Definition _solve (n_iterc : nat) (data : seq (trial R key K P))
    (theta : 'M[R]_(N * dc, P)) (self : solve_state) : result solve_state :=
  for_loop (solve_trial n_iterc theta) data self.

End Solve.

(** *** The smooth part of the objective: [REG_Data._precompute],
    [DstRF._construct_f] and [DstRF.eval_cv] *)

(** A list comprehension whose element expression may raise. *)
Fixpoint mapM (A B : Type) (f : A -> result B) (s : seq A) : result (seq B) :=
  if s is a :: s' then
    b <- f a ;; bs <- mapM f s' ;; Ok (b :: bs)
  else Ok [::].

Section Objective.

Variable R : rcfType.
Variable key : eqType.
Variables (K N dc P : nat).

(** The entries of [data._bbt], [data._bE] and [data._EtE] of one trial. *)
Definition stats_of (tr : trial R key K P) : 'M[R]_K * 'M[R]_(K, P) * 'M[R]_P :=
  let b := meg tr in
  let E := covariates tr in
  (b *m b^T, b *m E, E^T *m E).

(** [REG_Data._precompute]: the three lists, entry by entry. *)
Definition _precompute (data : seq (trial R key K P)) :
    seq ('M[R]_K * 'M[R]_(K, P) * 'M[R]_P) :=
  [seq stats_of tr | tr <- data].

(** [np.sum(inner1d(a, b))]. *)
Definition sum_inner1d m n (a b : 'M[R]_(m, n)) : R :=
  \sum_i \sum_j a i j * b i j.

(** [(y ** 2).sum()]. *)
Definition sum_sq m n (y : 'M[R]_(m, n)) : R := \sum_i \sum_j y i j ^+ 2.

(** The local functions [f] and [gradf] of [_construct_f]. *)
Definition f n (L : 'M[R]_(K, n)) (x : 'M[R]_(n, P)) (bbt : R)
    (bE : 'M[R]_(K, P)) (EtE : 'M[R]_P) : R :=
  let Lx := L *m x in
  let y := bbt - 2 * sum_inner1d bE Lx + sum_inner1d Lx (Lx *m EtE) in
  2^-1 * y.

Definition gradf n (L : 'M[R]_(K, n)) (x : 'M[R]_(n, P))
    (bE : 'M[R]_(K, P)) (EtE : 'M[R]_P) : 'M[R]_(n, P) :=
  let y := bE - L *m x *m EtE in
  - (L^T *m y).

(** The two closures [_construct_f] returns.  [grad_funct] reads
    [leadfields[0]] and so raises on a container without trial. *)
Record closures : Type := {
  funct : 'M[R]_(N * dc, P) -> R;
  grad_funct : 'M[R]_(N * dc, P) -> result 'M[R]_(N * dc, P)
}.

Variable lead_field : 'M[R]_(K, N * dc).

(** [DstRF._construct_f(data)].  [self.keys] is the list of keys of [data]
    and [data._bbt], [data._bE], [data._EtE] are what [_precompute] stored:
    [_set_mu] sets both before [fit] builds the closures. *)
Definition _construct_f (self : solve_state R key K N dc)
    (data : seq (trial R key K P)) : result closures :=
  let keys := [seq trial_key tr | tr <- data] in
  let pre := _precompute data in
  L <- mapM (fun k => sigma_b <- of_option KeyError (Sigma_b self k) ;;
                      cholesky sigma_b) keys ;;
  leadfields <- mapM (fun l => linalg_solve l lead_field) L ;;
  bEs <- mapM (fun p => linalg_solve p.1 p.2.1.2) (zip L pre) ;;
  bbts <- mapM (fun p => t <- linalg_solve p.1 p.2.1.1 ;;
                         u <- linalg_solve p.1 t^T ;;
                         Ok (\tr u)) (zip L pre) ;;
  let parts := zip (zip leadfields bbts) (zip bEs pre) in
  Ok {| funct := fun x =>
          foldl (fun fval p => fval + f p.1.1 x p.1.2 p.2.1 p.2.2.2) 0 parts;
        grad_funct := fun x =>
          if parts is p0 :: parts' then
            Ok (foldl (fun grad p => grad + gradf p.1.1 x p.2.1 p.2.2.2)
                  (gradf p0.1.1 x p0.2.1 p0.2.2.2) parts')
          else Raise IndexError |}.

(** [DstRF.eval_cv(data)], with [self.theta] as [theta]; the final division
    is Python's, of the integer 0 by 0 when there is no trial. *)
Definition eval_cv (self : solve_state R key K N dc)
    (theta : 'M[R]_(N * dc, P)) (data : seq (trial R key K P)) : result R :=
  v <- for_loop (fun v tr =>
         let y := meg tr - lead_field *m theta *m (covariates tr)^T in
         sigma_b <- of_option KeyError (Sigma_b self (trial_key tr)) ;;
         L <- cholesky sigma_b ;;
         y <- linalg_solve L y ;;
         Ok (v + 2^-1 * sum_sq y)) data 0 ;;
  py_truediv v (size data)%:R.

End Objective.

(** *** The estimation stability metric: [DstRF.compute_ES_metric] *)

Section Stability.

Variable R : rcfType.
Variable key : Type.
Variables (K n P : nat).

(** The entries of a 2-d array in C order, as [np.append] flattens them. *)
Definition mx_flat m1 m2 (A : 'M[R]_(m1, m2)) : seq R :=
  [seq A i j | i <- enum 'I_m1, j <- enum 'I_m2].

(** The row of [Y] of one model, given by its [lead_field] and [theta]: its
    predictions for the trials of [data], one after the other. *)
Definition prediction_row (data : seq (trial R key K P))
    (model : 'M[R]_(K, n) * 'M[R]_(n, P)) : seq R :=
  foldl (fun y tr => y ++ mx_flat (model.1 *m model.2 *m (covariates tr)^T))
    [::] data.

(** [DstRF.compute_ES_metric(models, data)].  The rows of [Y] have the same
    length, that of the first one.  Without model, [Y] is 1-d and the sum
    along [axis=1] is rejected. *)
Definition compute_ES_metric (models : seq ('M[R]_(K, n) * 'M[R]_(n, P)))
    (data : seq (trial R key K P)) : result (npfloat R) :=
  let Y := [seq prediction_row data model | model <- models] in
  if Y is y0 :: _ then
    let ts := iota 0 (size y0) in
    let Y_bar := [seq (\sum_(y <- Y) nth 0 y t) / (size Y)%:R | t <- ts] in
    let VarY :=
      (\sum_(y <- Y) \sum_(t <- ts) (nth 0 y t - nth 0 Y_bar t) ^+ 2)
      / (size Y)%:R in
    Ok (np_true_divide VarY (\sum_(v <- Y_bar) v ^+ 2))
  else Raise ValueError.

End Stability.

(** *** The outer iterations: [DstRF.fit] *)

(** The two orientations of a lead field and the module-level dictionary
    [orientation]. *)
Inductive orientation_t : Type := fixed | free.

Definition orientation (o : orientation_t) : nat :=
  match o with fixed => 1 | free => 3 end.

Section Residual.

Variable R : rcfType.

(** [math.sqrt] of a [np.float64]: NaN and plus infinity pass through, a
    negative argument is a [ValueError]. *)
Definition math_sqrt_np (r : npfloat R) : result (npfloat R) :=
  match r with
  | Finite v => if v < 0 then Raise ValueError else Ok (Finite (Num.sqrt v))
  | PosInf => Ok PosInf
  | NaN => Ok NaN
  | NegInf => Raise ValueError
  end.

(** [a < tol] for a Python float [a]: false on NaN. *)
Definition np_lt (a : npfloat R) (tol : R) : bool :=
  match a with
  | Finite v => v < tol
  | NegInf => true
  | PosInf | NaN => false
  end.

(** [DstRF._residual(theta0, theta1)]. *)
Definition _residual m n (theta0 theta1 : 'M[R]_(m, n)) : result (npfloat R) :=
  let diff := theta1 - theta0 in
  let num := sum_sq diff in
  let den := sum_sq theta0 in
  math_sqrt_np (np_true_divide num den).

(** [g_group(x, mu)] on an array of [3 N] rows: the reshape to
    [(-1, 3, l)] is rejected when the array has no column. *)
Definition g_group N P (x : 'M[R]_(N * 3, P)) (mu : R) : result R :=
  if P == 0%N then Raise ValueError
  else Ok (mu * \sum_i \sum_t Num.sqrt (\sum_j x (blk_ord i j) t ^+ 2)).

End Residual.

Section Fit.

Variable R : rcfType.
Variable eig : forall n, 'M[R]_n -> 'rV[R]_n * 'M[R]_n.
Variable compute_gamma_c : 'M[R]_3 -> 'M[R]_3 -> 'M[R]_3 -> result 'M[R]_3.
Variable key : eqType.
Variables (K N P : nat).
Variable o : orientation_t.

Local Notation dc := (orientation o).
Local Notation coefs := 'M[R]_(N * dc, P).

(** [opt.cproxg_group(z, mu, z)] between the two reshapes of
    [proxg_group_opt], and [Fasta(f, g, gradf, proxg, n_iter).learn(theta)]
    followed by the read of [coefs_]: compiled routines, parameters of the
    model.  [learn] is handed the array [theta] itself and may write into
    it: the routine returns the content of [theta] after the call and
    [coefs_]. *)
Variable cproxg_group : 'M[R]_(N * 3, P) -> R -> result 'M[R]_(N * 3, P).

Variable fasta_learn :
  (coefs -> R) -> (coefs -> result R) -> (coefs -> result coefs) ->
  (coefs -> R -> result coefs) -> nat -> coefs -> result (coefs * coefs).

(** [proxg_group_opt(z, mu)]. *)
Definition proxg_group_opt (z : 'M[R]_(N * 3, P)) (mu : R) :
    result 'M[R]_(N * 3, P) :=
  if P == 0%N then Raise ValueError else cproxg_group z mu.

Variable lead_field : 'M[R]_(K, N * dc).
Variable noise_covariance : 'M[R]_K.
Variable eta : R.
Variable init_sigma_b : 'M[R]_K.
Variables (n_iter n_iterc n_iterf : nat).

(** [DstRF.__init__iter(data)]: the dictionaries and the coefficients. *)
Definition __init__iter (data : seq (trial R key K P)) :
    solve_state R key K N dc * coefs :=
  let keys := [seq trial_key tr | tr <- data] in
  ({| Gamma := fun k => if k \in keys then Some [ffun _ => eta *: 1%:M] else None;
      Sigma_b := fun k => if k \in keys then Some init_sigma_b else None |},
   0).

(** The penalty and its proximal operator [fit] hands to FASTA. *)
Definition g_funct (mu : R) : coefs -> result R :=
  match o return 'M[R]_(N * orientation o, P) -> result R with
  | fixed => fun x => Ok (g x mu)
  | free => fun x => g_group x mu
  end.

Definition prox_g (mu : R) : coefs -> R -> result coefs :=
  match o return 'M[R]_(N * orientation o, P) -> R ->
                 result 'M[R]_(N * orientation o, P) with
  | fixed => fun x t => Ok (shrink x (mu * t))
  | free => fun x t => proxg_group_opt x (mu * t)
  end.

(** The state of the outer loop: [theta], [self.err] and the dictionaries. *)
Definition fit_state : Type :=
  (coefs * seq (npfloat R) * solve_state R key K N dc)%type.

(** [for i in range(self.n_iter)] with its [break], for [verbose=False] and
    without [idx]. *)
Fixpoint fit_loop (n : nat) (data : seq (trial R key K P)) (mu tol : R)
    (st : fit_state) : result fit_state :=
  if n is n'.+1 then
    let: (theta, err, self) := st in
    c <- _construct_f lead_field self data ;;
    r <- fasta_learn (funct c) (g_funct mu) (grad_funct c) (prox_g mu)
           n_iterf theta ;;
    let: (theta, coefs_) := r in
    e <- _residual theta coefs_ ;;
    let err := rcons err e in
    let theta := coefs_ in
    if np_lt e tol then Ok (theta, err, self)
    else
      self <- _solve eig compute_gamma_c lead_field noise_covariance true
                n_iterc data theta self ;;
      fit_loop n' data mu tol (theta, err, self)
  else Ok st.

(** [DstRF.fit(data, mu, tol)]. *)
Definition fit (data : seq (trial R key K P)) (mu tol : R) : result fit_state :=
  let: (self, theta) := __init__iter data in
  fit_loop n_iter data mu tol (theta, [::], self).

End Fit.

(** *** Arrays whose shape is known at run time, and the Gabor basis *)

(** A 2-d array of shape [(size rows, ncols)]. *)
Record array2 (X : Type) : Type := Array2 {
  ncols : nat;
  rows : seq (seq X)
}.

Arguments Array2 {X} ncols rows.

Section Basis.

Variable R : rcfType.

(** [np.exp], an external routine and a parameter of the model. *)
Variable exp : R -> R.

(** [np.linspace(start, stop, num)]. *)
Definition linspace (start stop : R) (num : nat) : seq R :=
  match num with
  | 0 => [::]
  | 1 => [:: start]
  | _ => [seq start + i%:R * ((stop - start) / (num.-1)%:R) | i <- iota 0 num]
  end.

(** [x[-1]] on a 1-d array. *)
Definition last_item (x : seq R) : result R :=
  if x is x0 :: x' then Ok (last x0 x') else Raise IndexError.

(** [np.max(a)], on the entries of [a]. *)
Definition np_max (a : seq R) : result R :=
  if a is a0 :: a' then Ok (foldr Num.max a0 a') else Raise ValueError.

(** [gaussian_basis(nlevel, span)]. *)
Definition gaussian_basis (nlevel : nat) (span : seq R) :
    result (array2 (npfloat R)) :=
  let x := span in
  xlast <- last_item x ;;
  inv <- py_truediv 1 nlevel%:R ;;
  let means :=
    linspace (xlast / nlevel%:R) (xlast * (1 - inv)) (nlevel - 1) in
  let stds : R := 17%:R / 2 in
  let W := [seq [seq exp (- (xt - nth 0 means count) ^+ 2 / (2 * stds ^+ 2))
                | xt <- x]
           | count <- iota 0 (nlevel - 1)] in
  wmax <- np_max (flatten W) ;;
  Ok (Array2 (nlevel - 1)
        [seq [seq np_true_divide (nth 0 (nth [::] W count) t) wmax
             | count <- iota 0 (nlevel - 1)]
        | t <- iota 0 (size x)]).

End Basis.

(** *** The data container: [covariate_from_stim] and [REG_Data] *)

Section NpFloatArith.

Variable R : rcfType.

(** [x * s] and [x / s] for an entry [x] of a [float64] array and a finite
    Python float [s]; a zero [s] is the positive zero [math.sqrt] returns. *)
Definition npf_mul (x : npfloat R) (s : R) : npfloat R :=
  match x with
  | Finite v => Finite (v * s)
  | PosInf => if s == 0 then NaN else if 0 < s then PosInf else NegInf
  | NegInf => if s == 0 then NaN else if 0 < s then NegInf else PosInf
  | NaN => NaN
  end.

Definition npf_div (x : npfloat R) (s : R) : npfloat R :=
  match x with
  | Finite v => np_true_divide v s
  | PosInf => if s < 0 then NegInf else PosInf
  | NegInf => if s < 0 then PosInf else NegInf
  | NaN => NaN
  end.

Definition is_finite (x : npfloat R) : bool :=
  if x is Finite _ then true else false.

End NpFloatArith.

Section CovariateFromStim.

Variable R : rcfType.

(** [covariate_from_stim(stim, M)] with [normalize=False], on the array [w]
    of shape (cases, time) the function reads from [stim]: for every case
    the list [X] of the reversed windows of length [M].  The result is the
    nested list [Y] before [np.array] makes an array of it. *)
Definition covariate_from_stim (w : array2 R) (M : nat) : seq (seq (seq R)) :=
  let length := ncols w in
  [seq [seq rev (take M (drop i wj)) | i <- iota 0 (length.+1 - M)]
  | wj <- rows w].

(** [np.dot(window, basis)] for one window. *)
Definition dot_row M B (window : seq R) (basis : 'M[R]_(M, B)) : seq R :=
  [seq \sum_(k < M) nth 0 window k * basis k b | b <- enum 'I_B].

End CovariateFromStim.

Section RegData.

Variable R : rcfType.
Variable key : eqType.

(** The state of a [REG_Data] object.  [basis] is the array
    [gaussian_basis] returned to [__init__], of shape
    [(filter_length, B)]; an object exists only for
    [filter_length >= 2], for which [__init__] does not raise.
    [datakeys] is the address of the list object in the store below: the
    list is shared between a container and its time slices. *)
Record REG_Data (M B : nat) : Type := {
  basis : 'M[R]_(M, B);
  covariates_ : key -> option (array2 (npfloat R));
  meg_ : key -> option (array2 (npfloat R));
  datakeys : nat;
  tstep : option R;
  _norm_factor : option R;
  _n_predictor_variables : nat
}.

(** The list objects, by address. *)
Definition store : Type := seq (seq key).

Definition store_get (s : store) (a : nat) : seq key := nth [::] s a.

Definition store_append (s : store) (a : nat) (k : key) : store :=
  set_nth [::] s a (rcons (store_get s a) k).

Variables (M B : nat).

(** [REG_Data.__init__], once the basis is computed: a fresh empty list and
    empty dictionaries. *)
Definition REG_Data_new (basis : 'M[R]_(M, B)) (s : store) :
    store * REG_Data M B :=
  (rcons s [::],
   {| basis := basis; covariates_ := fun _ => None; meg_ := fun _ => None;
      datakeys := size s; tstep := None; _norm_factor := None;
      _n_predictor_variables := 1 |}).

(** [REG_Data.load(key, meg, stim)] with [normalize_regresor=False]:
    [meg] is the (sensor, time) array and [tstep_meg] the time step of the
    NDVar, [w] the (case, time) array of the stimulus.  The result is the
    store and the object as the call leaves them, and the exception it
    raised, if any. *)
Definition load (s : store) (self : REG_Data M B) (k : key)
    (meg : array2 R) (tstep_meg : R) (w : array2 R) :
    store * REG_Data M B * option exn :=
  let s := store_append s (datakeys self) k in
  let tstep' := if tstep self is None then Some tstep_meg else tstep self in
  let Ty := (ncols meg - (M - 1))%N in
  let y := [seq drop (M - 1) r | r <- rows meg] in
  let nf : R := Num.sqrt Ty%:R in
  let meg' := dict_set (meg_ self) k
                (Array2 Ty [seq [seq np_true_divide v nf | v <- r] | r <- y]) in
  let nf' := if _norm_factor self is None then Some nf else _norm_factor self in
  let self1 :=
    {| basis := basis self; covariates_ := covariates_ self; meg_ := meg';
       datakeys := datakeys self; tstep := tstep'; _norm_factor := nf';
       _n_predictor_variables := _n_predictor_variables self |} in
  let Y := covariate_from_stim w M in
  if (Y == [::]) || (head [::] Y == [::]) then (s, self1, Some ValueError)
  else
    let n := size (head [::] Y) in
    let cov :=
      [seq flatten [seq [seq np_true_divide v nf
                        | v <- dot_row (nth [::] X i) (basis self)]
                   | X <- Y]
      | i <- iota 0 n] in
    (s,
     {| basis := basis self;
        covariates_ := dict_set (covariates_ self) k
                         (Array2 (size Y * B) cov);
        meg_ := meg'; datakeys := datakeys self; tstep := tstep';
        _norm_factor := nf'; _n_predictor_variables := size Y |},
     None).

(** [len(data)] and the items [for meg, covariates, key in data] goes
    through. *)
Definition REG_Data_len (s : store) (self : REG_Data M B) : nat :=
  size (store_get s (datakeys self)).

Definition REG_Data_iter (s : store) (self : REG_Data M B) :
    result (seq (array2 (npfloat R) * array2 (npfloat R) * key)) :=
  mapM (fun k => m <- of_option KeyError (meg_ self k) ;;
                 c <- of_option KeyError (covariates_ self k) ;;
                 Ok (m, c, k))
    (store_get s (datakeys self)).

(** [a[:, idx]] and [a[idx, :]] for a list [idx] of non-negative indices. *)
Definition take_cols (a : array2 (npfloat R)) (idx : seq nat) :
    result (array2 (npfloat R)) :=
  if all (fun t => t < ncols a)%N idx then
    Ok (Array2 (size idx) [seq [seq nth NaN r t | t <- idx] | r <- rows a])
  else Raise IndexError.

Definition take_rows (a : array2 (npfloat R)) (idx : seq nat) :
    result (array2 (npfloat R)) :=
  if all (fun t => t < size (rows a))%N idx then
    Ok (Array2 (ncols a) [seq nth [::] (rows a) t | t <- idx])
  else Raise IndexError.

Definition rescale (a : array2 (npfloat R)) (nf nf' : R) : array2 (npfloat R) :=
  Array2 (ncols a) [seq [seq npf_div (npf_mul v nf) nf' | v <- r] | r <- rows a].

(** [REG_Data.timeslice(idx)]: the new object shares the list of keys. *)
Definition timeslice (s : store) (self : REG_Data M B) (idx : seq nat) :
    result (store * REG_Data M B) :=
  let: (s, regdata_) := REG_Data_new (basis self) s in
  let nf' : R := Num.sqrt (size idx)%:R in
  dicts <- for_loop (fun (d : (key -> option (array2 (npfloat R))) *
                               (key -> option (array2 (npfloat R)))) k =>
      m <- of_option KeyError (meg_ self k) ;;
      m <- take_cols m idx ;;
      nf <- of_option TypeError (_norm_factor self) ;;
      c <- of_option KeyError (covariates_ self k) ;;
      c <- take_rows c idx ;;
      Ok (dict_set d.1 k (rescale m nf nf'), dict_set d.2 k (rescale c nf nf')))
    (store_get s (datakeys self)) (meg_ regdata_, covariates_ regdata_) ;;
  Ok (s,
      {| basis := basis self; covariates_ := dicts.2; meg_ := dicts.1;
         datakeys := datakeys self; tstep := tstep self;
         _norm_factor := Some nf';
         _n_predictor_variables := _n_predictor_variables self |}).

End RegData.

(** ** Part II. Properties *)

(** *** The real numbers of the Standard Library as a real closed field

    The theorems below are stated over an arbitrary real closed field.  To
    run them on concrete inputs, the Standard Library's [R] is given that
    structure. *)

Module StdReals.

Definition Req_bool (x y : R) : bool := if Req_dec_T x y then true else false.

Lemma Req_boolP : Equality.axiom Req_bool.
Proof. by move=> x y; rewrite /Req_bool; case: Req_dec_T => h; constructor. Qed.

HB.instance Definition _ := hasDecEq.Build R Req_boolP.

Definition Rpick (P : pred R) (n : nat) : option R :=
  let x := epsilon (inhabits R0) (fun x => P x : Prop) in
  if P x then Some x else None.

Lemma Rpick_some P n x : Rpick P n = Some x -> P x.
Proof. by rewrite /Rpick; case: ifP => // Px [<-]. Qed.

Lemma Rpick_ex (P : pred R) : (exists x, P x) -> exists n, Rpick P n.
Proof.
move=> exP; exists 0%N; rewrite /Rpick.
by rewrite (epsilon_spec (inhabits R0) (fun x => P x : Prop) exP).
Qed.

Lemma Rpick_ext (P Q : pred R) : P =1 Q -> Rpick P =1 Rpick Q.
Proof.
move=> eqPQ n; rewrite /Rpick.
by have -> : P = Q by apply: functional_extensionality.
Qed.

HB.instance Definition _ := hasChoice.Build R Rpick_some Rpick_ex Rpick_ext.

Lemma RplusA : associative Rplus.
Proof. by move=> x y z; rewrite Rplus_assoc. Qed.

Lemma Rplus_oppl : left_inverse R0 Ropp Rplus.
Proof. by move=> x; rewrite Rplus_comm Rplus_opp_r. Qed.

HB.instance Definition _ :=
  GRing.isZmodule.Build R RplusA Rplus_comm Rplus_0_l Rplus_oppl.

Lemma RmultA : associative Rmult.
Proof. by move=> x y z; rewrite Rmult_assoc. Qed.

Lemma Rmult_distl : left_distributive Rmult Rplus.
Proof. by move=> x y z; rewrite Rmult_plus_distr_r. Qed.

Lemma R1_nz : R1 != R0.
Proof. by apply/eqP; exact: R1_neq_R0. Qed.

HB.instance Definition _ :=
  GRing.Zmodule_isComNzRing.Build R
    RmultA Rmult_comm Rmult_1_l Rmult_distl R1_nz.

Definition Rinvx (x : R) : R := if x != 0 then Rinv x else x.

Definition Runit : pred R := fun x => x != 0.

Lemma RmultVx : {in Runit, left_inverse 1 Rinvx Rmult}.
Proof.
move=> x; rewrite -topredE /Runit /Rinvx /= => nz; rewrite nz.
by rewrite Rmult_comm Rinv_r //; apply/eqP.
Qed.

Lemma Runit_intro (x y : R) : y * x = 1 -> Runit x.
Proof.
move=> yx1; apply/eqP => x0; move: yx1; rewrite x0 mulr0 => /esym /eqP.
by rewrite (negbTE R1_nz).
Qed.

Lemma Rinvx_out : {in predC Runit, Rinvx =1 id}.
Proof. by move=> x; rewrite inE /Runit /Rinvx => /negbTE ->. Qed.

HB.instance Definition _ :=
  GRing.ComNzRing_hasMulInverse.Build R RmultVx Runit_intro Rinvx_out.

Lemma R_idomain (x y : R) : x * y = 0 -> (x == 0) || (y == 0).
Proof. by move=> /Rmult_integral [] ->; rewrite eqxx ?orbT. Qed.

HB.instance Definition _ := GRing.ComUnitRing_isIntegral.Build R R_idomain.

Lemma R_field : GRing.field_axiom R.
Proof. by []. Qed.

HB.instance Definition _ := GRing.UnitRing_isField.Build R R_field.

Definition Rleb (x y : R) : bool := if Rle_dec x y then true else false.

Definition Rltb (x y : R) : bool := if Rlt_dec x y then true else false.

Lemma RlebP x y : reflect (Rle x y) (Rleb x y).
Proof. by rewrite /Rleb; case: Rle_dec => h; constructor. Qed.

Lemma RltbP x y : reflect (Rlt x y) (Rltb x y).
Proof. by rewrite /Rltb; case: Rlt_dec => h; constructor. Qed.

Section OrderFacts.

Local Open Scope R_scope.

Lemma Rleb0_add x y : Rleb 0 x -> Rleb 0 y -> Rleb 0 (x + y).
Proof. by move=> /RlebP hx /RlebP hy; apply/RlebP; std_lra. Qed.

Lemma Rleb0_mul x y : Rleb 0 x -> Rleb 0 y -> Rleb 0 (x * y).
Proof. by move=> /RlebP hx /RlebP hy; apply/RlebP; apply: Rmult_le_pos. Qed.

Lemma Rleb0_anti x : Rleb 0 x -> Rleb x 0 -> x = 0.
Proof. by move=> /RlebP hx /RlebP hy; std_lra. Qed.

Lemma Rleb_sub x y : Rleb 0 (y - x) = Rleb x y.
Proof. by apply/RlebP/RlebP => h; std_lra. Qed.

Lemma Rleb0_total x : Rleb 0 x || Rleb x 0.
Proof.
by apply/orP; case: (Rle_dec 0 x) => h; [left | right]; apply/RlebP; std_lra.
Qed.

Lemma Rabs_opp x : Rabs (- x) = Rabs x.
Proof. exact: Rabs_Ropp. Qed.

Lemma Rabs_ge0 x : Rleb 0 x -> Rabs x = x.
Proof. by move=> /RlebP h; apply: Rabs_pos_eq. Qed.

Lemma Rltb_def x y : Rltb x y = (y != x) && Rleb x y.
Proof.
apply/RltbP/andP => [h | [/eqP ne /RlebP le]].
  split; last by apply/RlebP; std_lra.
  by apply/eqP => e; rewrite e in h; exact: (Rlt_irrefl _ h).
by case: le => // e; case: ne.
Qed.

End OrderFacts.

HB.instance Definition _ := Num.IntegralDomain_isLeReal.Build R
  Rleb0_add Rleb0_mul Rleb0_anti Rleb_sub Rleb0_total Rabs_opp Rabs_ge0
  Rltb_def.

(** Polynomial functions are continuous, so the intermediate value theorem
    of the Standard Library gives the real closed field axiom. *)
Lemma horner_continuity (p : {poly R}) : continuity (fun x : R => p.[x]).
Proof.
elim/poly_ind: p => [|p c IHp].
  have -> : (fun x : R => (0 : {poly R}).[x]) = fct_cte 0.
    by apply: functional_extensionality => x; rewrite horner0.
  exact: continuity_const.
have -> : (fun x : R => (p * 'X + c%:P).[x])
          = plus_fct (mult_fct (fun x : R => p.[x]) id) (fct_cte c).
  by apply: functional_extensionality => x; rewrite hornerMXaddC.
apply: continuity_plus; last exact: continuity_const.
apply: continuity_mult => //.
exact: derivable_continuous derivable_id.
Qed.

Lemma R_real_closed : Num.real_closed_axiom R.
Proof.
move=> p a b leab /andP [pa0 pb0].
have hab : Rle a b by apply/RlebP.
have /RlebP hprod : p.[a] * p.[b] <= 0 by rewrite mulr_le0_ge0.
have [z [[az zb] pz0]] :=
  IVT_cor (fun x : R => p.[x]) a b (horner_continuity p) hab hprod.
exists z; first by apply/andP; split; apply/RlebP.
by rewrite /root pz0.
Qed.

HB.instance Definition _ := Num.RealField_isClosed.Build R R_real_closed.

End StdReals.

Import StdReals.

(** *** Soft thresholding *)

Section ProximalFacts.

Variable R : rcfType.

Implicit Types (a mu : R).

Lemma shrink1_0 a : shrink1 0 a = a.
Proof.
rewrite /shrink1 subr0 max_l ?normr_ge0 //.
by rewrite -numEsg.
Qed.

Lemma shrink1_contract mu a : 0 <= mu -> `|shrink1 mu a| <= `|a|.
Proof.
move=> mu0; rewrite /shrink1 normrM.
case: (eqVneq a 0) => [->|a0]; first by rewrite sgr0 normr0 mul0r.
rewrite normr_sg a0 mul1r.
have m0 : 0 <= Num.max (`|a| - mu) 0 by rewrite le_max lexx orbT.
rewrite ger0_norm // ge_max normr_ge0 andbT.
by rewrite lerBlDr lerDl.
Qed.

Lemma shrink_0 m n (x : 'M[R]_(m, n)) : shrink x 0 = x.
Proof. by apply/matrixP => i j; rewrite !mxE shrink1_0. Qed.

End ProximalFacts.

(** C8. For every matrix [x] and every [mu >= 0]: [shrink(x, 0) = x]; every
    entry of [shrink(x, mu)] is at most the matching entry of [x] in
    absolute value; and [shrink(shrink(x, mu), 0) = shrink(x, mu)]. *)
Theorem shrink_contraction_idempotent (R : rcfType) m n
    (x : 'M[R]_(m, n)) (mu : R) :
  0 <= mu ->
  [/\ shrink x 0 = x,
      forall i j, `|shrink x mu i j| <= `|x i j|
    & shrink (shrink x mu) 0 = shrink x mu].
Proof.
move=> mu0; split; first exact: shrink_0.
  by move=> i j; rewrite !mxE shrink1_contract.
exact: shrink_0.
Qed.

(** The theorem at the 1 x 1 matrix [[3]] with [mu = 1], over the Standard
    Library's reals. *)
Lemma shrink_contraction_idempotent_witness :
  let x : 'M[Rdefinitions.R]_1 := 3%:R%:M in
  [/\ shrink x 0 = x,
      forall i j, `|shrink x 1 i j| <= `|x i j|
    & shrink (shrink x 1) 0 = shrink x 1].
Proof.
exact: (@shrink_contraction_idempotent Rdefinitions.R 1 1 (3%:R%:M) 1 ler01).
Defined.

(** *** Cholesky factors *)

Section CholeskyFacts.

Variable R : rcfType.

Lemma cholesky_trig n (A L : 'M[R]_n) :
  cholesky A = Ok L -> is_trig_mx L /\ forall i, 0 < L i i.
Proof.
elim: n A L => [|n IHn] A L /=.
  move=> _; split; last by case.
  by apply/is_trig_mxP => i; case: i.
case: ifP => // /negbT; rewrite -ltNge => a0.
case E: (cholesky _) => [L'|] //= [<-].
have [trL' dL'] := IHn _ _ E.
have l0 : 0 < Num.sqrt (A ord0 ord0) by rewrite sqrtr_gt0.
split.
  rewrite (@is_trig_block_mx _ 1 n 1 n) // eqxx trL' andbT /=.
  by apply/is_trig_mxP => i j; rewrite !ord1.
move=> i; case: (split_ordP (i : 'I_(1 + n))) => j ->.
  by rewrite (@block_mxEul _ 1 n 1 n) ord1 mxE eqxx mulr1n.
by rewrite (@block_mxEdr _ 1 n 1 n).
Qed.

Lemma cholesky_unit n (A L : 'M[R]_n) : cholesky A = Ok L -> L \in unitmx.
Proof.
move=> /cholesky_trig [trL dL].
rewrite unitmxE unitfE det_trig //.
by apply/prodf_neq0 => i _; rewrite gt_eqF.
Qed.

Lemma cholesky_mulmx_tr n (A L : 'M[R]_n) :
  A^T = A -> cholesky A = Ok L -> L *m L^T = A.
Proof.
elim: n A L => [|n IHn] A L symA /=.
  by move=> _; rewrite [LHS]flatmx0 [RHS]flatmx0.
case: ifP => // /negbT; rewrite -ltNge => a0.
set l := Num.sqrt _; set c := l^-1 *: _.
case E: (cholesky _) => [L'|] //= [<-].
have l0 : 0 < l by rewrite sqrtr_gt0.
have symS : (drsubmx (A : 'M_(1 + n)) - c *m c^T)^T
            = drsubmx (A : 'M_(1 + n)) - c *m c^T.
  by rewrite linearB /= trmx_mul trmxK trmx_drsub symA.
have LL' := IHn _ _ symS E.
rewrite (@tr_block_mx _ 1 n 1 n) (@mulmx_block _ 1 n 1 n 1 n).
rewrite !trmx0 !mul0mx mulmx0 !addr0 tr_scalar_mx.
have -> : l%:M *m l%:M = ulsubmx (A : 'M_(1 + n)).
  rewrite -scalar_mxM -expr2 sqr_sqrtr ?ltW //.
  by apply/matrixP => i j; rewrite !ord1 !mxE eqxx mulr1n lshift0.
have -> : l%:M *m c^T = ursubmx (A : 'M_(1 + n)).
  rewrite mul_scalar_mx /c linearZ /= scalerA divff ?gt_eqF // scale1r.
  by rewrite trmx_dlsub symA.
have -> : c *m l%:M = dlsubmx (A : 'M_(1 + n)).
  by rewrite mul_mx_scalar /c scalerA divff ?gt_eqF // scale1r.
by rewrite LL' addrC subrK submxK.
Qed.

End CholeskyFacts.

(** *** Positive semi-definite matrices and eigendecompositions *)

Section PSD.

Variable R : rcfType.

Definition psd n (A : 'M[R]_n) : Prop :=
  A^T = A /\ forall w : 'cV[R]_n, 0 <= (w^T *m A *m w) 0 0.

Definition posdef n (A : 'M[R]_n) : Prop :=
  A^T = A /\ forall w : 'cV[R]_n, w != 0 -> 0 < (w^T *m A *m w) 0 0.

Lemma col_scaleE m n (A : 'M[R]_(m, n)) e : col_scale A e = A *m diag_mx e.
Proof. by rewrite mul_mx_diag. Qed.

Lemma row_scaleE m n (A : 'M[R]_(m, n)) e : row_scale A e = diag_mx e *m A.
Proof. by rewrite mul_diag_mx; apply/matrixP => i j; rewrite !mxE mulrC. Qed.

Lemma quad_diag n (d : 'rV[R]_n) (w : 'cV[R]_n) :
  (w^T *m diag_mx d *m w) 0 0 = \sum_i d 0 i * (w i 0) ^+ 2.
Proof.
rewrite mxE; apply: eq_bigr => i _.
by rewrite mul_mx_diag !mxE expr2; ring.
Qed.

Lemma congr_psd n (T : 'M[R]_n) (d : 'rV[R]_n) :
  (forall i, 0 <= d 0 i) -> psd (col_scale T d *m T^T).
Proof.
move=> d0; rewrite col_scaleE; split.
  by rewrite !trmx_mul trmxK tr_diag_mx mulmxA.
move=> w.
have -> : w^T *m (T *m diag_mx d *m T^T) *m w
          = (T^T *m w)^T *m diag_mx d *m (T^T *m w).
  by rewrite trmx_mul trmxK !mulmxA.
rewrite quad_diag; apply: sumr_ge0 => i _.
by rewrite mulr_ge0 // sqr_ge0.
Qed.


Lemma gram_quad_ge0 m n (B : 'M[R]_(m, n)) (w : 'cV[R]_n) :
  0 <= (w^T *m (B^T *m B) *m w) 0 0.
Proof.
have -> : w^T *m (B^T *m B) *m w = (B *m w)^T *m (B *m w).
  by rewrite trmx_mul !mulmxA.
rewrite mxE; apply: sumr_ge0 => i _.
by rewrite mxE -expr2 sqr_ge0.
Qed.

Lemma diag_mx_mul n (a b : 'rV[R]_n) :
  (forall i, a 0 i * b 0 i = 1) -> diag_mx a *m diag_mx b = 1%:M.
Proof.
move=> ab; rewrite mulmx_diag -[RHS]diag_const_mx; congr diag_mx.
by apply/rowP => i; rewrite !mxE ab.
Qed.

Definition eig_spec n (A : 'M[R]_n) (p : 'rV[R]_n * 'M[R]_n) : Prop :=
  p.2^T *m p.2 = 1%:M /\ A = p.2 *m diag_mx p.1 *m p.2^T.

Lemma eig_spec_diag n (A : 'M[R]_n) e v :
  eig_spec A (e, v) -> v^T *m A *m v = diag_mx e.
Proof.
move=> [/= vv ->].
by rewrite !mulmxA vv mul1mx -mulmxA vv mulmx1.
Qed.

Definition unit_col n (i : 'I_n) : 'cV[R]_n := delta_mx i 0.

Lemma eig_spec_val n (A : 'M[R]_n) e v i :
  eig_spec A (e, v) ->
  e 0 i = ((v *m unit_col i)^T *m A *m (v *m unit_col i)) 0 0.
Proof.
move=> sp.
have -> : (v *m unit_col i)^T *m A *m (v *m unit_col i)
          = (unit_col i)^T *m (v^T *m A *m v) *m unit_col i.
  by rewrite trmx_mul !mulmxA.
rewrite (eig_spec_diag sp) quad_diag (bigD1 i) //= big1.
  by move=> j ji; rewrite /unit_col !mxE (negbTE ji) expr0n mulr0.
by rewrite /unit_col !mxE !eqxx addr0 expr1n mulr1.
Qed.

Lemma eig_spec_col_neq0 n (A : 'M[R]_n) e v i :
  eig_spec A (e, v) -> v *m unit_col i != 0.
Proof.
move=> [/= vv _]; apply/eqP => /(congr1 (mulmx v^T)).
rewrite mulmxA vv mul1mx mulmx0 => /matrixP /(_ i 0).
by rewrite /unit_col !mxE !eqxx => /eqP; rewrite oner_eq0.
Qed.

End PSD.

Section GammaFacts.
Variable R : rcfType.
Variable eig : forall n, 'M[R]_n -> 'rV[R]_n * 'M[R]_n.

(** The matrix handed to the second call of [linalg.eig]. *)
Definition gamma_inner n k (z : 'M[R]_n) (x : 'M[R]_(n, k)) : 'M[R]_n :=
  let: (e, v) := eig z in
  let s := np_sqrt (clamp0 e) in
  row_scale (col_scale ((x^T *m v)^T *m (x^T *m v)) s) s.

Lemma compute_gamma_i_psd n k (z : 'M[R]_n) (x : 'M[R]_(n, k)) :
  psd (_compute_gamma_i eig z x).
Proof.
rewrite /_compute_gamma_i; case: (eig z) => e v; case: (eig _) => d u.
by apply: congr_psd => i; rewrite !mxE sqrtr_ge0.
Qed.

Lemma compute_gamma_i_eqn n k (z : 'M[R]_n) (x : 'M[R]_(n, k)) :
  posdef z -> eig_spec z (eig z) ->
  eig_spec (gamma_inner z x) (eig (gamma_inner z x)) ->
  _compute_gamma_i eig z x *m z *m _compute_gamma_i eig z x = x *m x^T.
Proof.
rewrite /_compute_gamma_i /gamma_inner.
case: (eig z) => e v [symz pdz] spz.
set s := np_sqrt (clamp0 e).
set M := row_scale _ s.
case: (eig M) => d u spM.
set r := np_sqrt (clamp0 d); set si := _myinv s.
have e_gt0 i : 0 < e 0 i.
  by rewrite (eig_spec_val i spz); apply: pdz; apply: eig_spec_col_neq0 spz.
have s_gt0 i : 0 < s 0 i.
  by rewrite !mxE [_ < 0]ltNge (ltW (e_gt0 i)) /= sqrtr_gt0.
have ME : M = (x^T *m v *m diag_mx s)^T *m (x^T *m v *m diag_mx s).
  by rewrite /M row_scaleE col_scaleE !trmx_mul tr_diag_mx !mulmxA.
have d_ge0 i : 0 <= d 0 i.
  by rewrite (eig_spec_val i spM) ME gram_quad_ge0.
have [/= vv zE] := spz; have [/= uu MEu] := spM.
have vv' : v *m v^T = 1%:M by apply: mulmx1C.
have ssi : diag_mx s *m diag_mx si = 1%:M.
  by apply: diag_mx_mul => i; rewrite /si /_myinv [X in _ * X]mxE s_gt0 divff // gt_eqF.
have sis : diag_mx si *m diag_mx s = 1%:M.
  by apply: diag_mx_mul => i; rewrite /si /_myinv [X in X * _]mxE s_gt0 mulVf // gt_eqF.
have siesi : diag_mx si *m diag_mx e *m diag_mx si = 1%:M.
  rewrite -mulmxA; apply/esym; rewrite -sis; congr (_ *m _).
  rewrite mulmx_diag; congr diag_mx; apply/rowP => i.
  rewrite !mxE [_ < 0]ltNge (ltW (e_gt0 i)) /= sqrtr_gt0 e_gt0.
  by rewrite -[X in X / _]sqr_sqrtr ?ltW // expr2 mulfK // gt_eqF // sqrtr_gt0.
have rr : diag_mx r *m diag_mx r = diag_mx d.
  rewrite mulmx_diag; congr diag_mx; apply/rowP => i.
  by rewrite !mxE [_ < 0]ltNge d_ge0 /= -expr2 sqr_sqrtr.
rewrite !col_scaleE.
set T := v *m diag_mx si *m u.
have TzT : T^T *m z *m T = 1%:M.
  rewrite /T !trmx_mul tr_diag_mx {1}zE !mulmxA.
  rewrite -(mulmxA (u^T *m diag_mx si)) vv mulmx1.
  rewrite -(mulmxA _ v^T v) vv mulmx1.
  have -> : u^T *m diag_mx si *m diag_mx e *m diag_mx si *m u
            = u^T *m (diag_mx si *m diag_mx e *m diag_mx si) *m u.
    by rewrite !mulmxA.
  by rewrite siesi mulmx1.
have -> : T *m diag_mx r *m T^T *m z *m (T *m diag_mx r *m T^T)
          = T *m diag_mx r *m (T^T *m z *m T) *m diag_mx r *m T^T.
  by rewrite !mulmxA.
rewrite TzT mulmx1 -(mulmxA T) rr /T !trmx_mul tr_diag_mx !mulmxA.
have -> : v *m diag_mx si *m u *m diag_mx d *m u^T *m diag_mx si *m v^T
          = v *m diag_mx si *m (u *m diag_mx d *m u^T) *m diag_mx si *m v^T.
  by rewrite !mulmxA.
rewrite -MEu ME !trmx_mul tr_diag_mx trmxK !mulmxA.
rewrite -(mulmxA v) sis mulmx1 vv' mul1mx.
rewrite -(mulmxA (x *m x^T *m v)) ssi mulmx1.
by rewrite -(mulmxA (x *m x^T)) vv' mulmx1.
Qed.

End GammaFacts.

(** *** The per-source covariance update solves its defining equation *)

(** C2. For every symmetric positive semi-definite [z] and every [x] with as
    many rows, [_compute_gamma_i(z, x)] is symmetric positive semi-definite,
    and when [z] is positive definite it satisfies the defining equation
    [gamma . z . gamma = x . xT], over exact real arithmetic.  [linalg.eig]
    is assumed to return an orthonormal eigendecomposition of the two
    symmetric matrices it is called on.  The size of [z] is arbitrary (3 in
    the program). *)
Theorem compute_gamma_i_correct (R : rcfType)
    (eig : forall n, 'M[R]_n -> 'rV[R]_n * 'M[R]_n)
    n k (z : 'M[R]_n) (x : 'M[R]_(n, k)) :
  psd z ->
  eig_spec z (eig _ z) ->
  eig_spec (gamma_inner eig z x) (eig _ (gamma_inner eig z x)) ->
  psd (_compute_gamma_i eig z x) /\
  (posdef z ->
   _compute_gamma_i eig z x *m z *m _compute_gamma_i eig z x = x *m x^T).
Proof.
move=> _ spz spM; split; first exact: compute_gamma_i_psd.
by move=> pdz; apply: compute_gamma_i_eqn.
Qed.

(** An eigen-solver that is correct on diagonal matrices: the diagonal
    entries, with the identity as eigenvectors. *)
Definition eig_diag (R : rcfType) n (A : 'M[R]_n) : 'rV[R]_n * 'M[R]_n :=
  (\row_j A j j, 1%:M).

Lemma eig_diag_spec (R : rcfType) n (A : 'M[R]_n) :
  is_diag_mx A -> eig_spec A (eig_diag A).
Proof.
move=> dA; split; rewrite /= ?trmx1 ?mulmx1 ?mul1mx //.
apply/matrixP => i j; rewrite !mxE.
case: (eqVneq i j) => [->|ij]; first by rewrite mulr1n.
by rewrite mulr0n; move/is_diag_mxP: dA => /(_ i j ij).
Qed.

Lemma gamma_inner_id (R : rcfType) n :
  gamma_inner (@eig_diag R) (1%:M : 'M[R]_n) (1%:M : 'M[R]_n) = 1%:M.
Proof.
rewrite /gamma_inner /eig_diag row_scaleE col_scaleE trmx1 !mul1mx mulmx1.
have -> : np_sqrt (clamp0 (\row_j (1%:M : 'M[R]_n) j j)) = const_mx 1.
  by apply/rowP => j; rewrite !mxE eqxx ltr10 sqrtr1.
by rewrite diag_const_mx trmx1 !mulmx1.
Qed.

Lemma psd1 (R : rcfType) n : psd (1%:M : 'M[R]_n).
Proof.
split; first by rewrite trmx1.
by move=> w; rewrite mulmx1 mxE; apply: sumr_ge0 => i _; rewrite mxE -expr2 sqr_ge0.
Qed.

Lemma posdef1 (R : rcfType) n : posdef (1%:M : 'M[R]_n).
Proof.
split; first by rewrite trmx1.
move=> w w0; rewrite mulmx1 mxE.
have [i wi] : exists i, w i 0 != 0.
  apply/existsP; apply: contraNT w0; rewrite negb_exists => /forallP h.
  by apply/eqP/colP => i; rewrite mxE; apply/eqP; have := h i; rewrite negbK.
rewrite (bigD1 i) //= mxE -expr2.
apply: ltr_pwDl; first by rewrite exprn_even_gt0.
by apply: sumr_ge0 => j _; rewrite mxE -expr2 sqr_ge0.
Qed.

Lemma compute_gamma_i_correct_witness :
  let z : 'M[Rdefinitions.R]_3 := 1%:M in
  let x : 'M[Rdefinitions.R]_3 := 1%:M in
  psd (_compute_gamma_i (@eig_diag _) z x) /\
  _compute_gamma_i (@eig_diag _) z x *m z *m _compute_gamma_i (@eig_diag _) z x
  = x *m x^T.
Proof.
have [h1 h2] :=
  @compute_gamma_i_correct Rdefinitions.R (@eig_diag _) 3 3 1%:M 1%:M
    (psd1 _ _)
    (eig_diag_spec (scalar_mx_is_diag _ _))
    (eq_ind_r (fun M => eig_spec M (eig_diag M))
       (eig_diag_spec (scalar_mx_is_diag _ _)) (gamma_inner_id _ _)).
by split=> //; apply: h2; apply: posdef1.
Defined.

(** *** Positive definite matrices are the ones [cholesky] accepts *)

Section PosDefFacts.
Variable R : rcfType.

Lemma col_sqnorm_gt0 n (y : 'cV[R]_n) : y != 0 -> 0 < (y^T *m y) 0 0.
Proof.
move=> y0; rewrite mxE.
have [i yi] : exists i, y i 0 != 0.
  apply/existsP; apply: contraNT y0; rewrite negb_exists => /forallP h.
  by apply/eqP/colP => i; rewrite mxE; apply/eqP; have := h i; rewrite negbK.
rewrite (bigD1 i) //= mxE -expr2.
apply: ltr_pwDl; first by rewrite exprn_even_gt0.
by apply: sumr_ge0 => j _; rewrite mxE -expr2 sqr_ge0.
Qed.

Lemma trace_gram_gt0 m n (B : 'M[R]_(m, n)) : B != 0 -> 0 < \tr (B *m B^T).
Proof.
move=> B0.
have /existsP [i /existsP [j Bij]] : [exists i, exists j, B i j != 0].
  apply: contraNT B0; rewrite negb_exists => /forallP h.
  apply/eqP/matrixP => i j; rewrite mxE; apply/eqP.
  by have := h i; rewrite negb_exists => /forallP /(_ j); rewrite negbK.
rewrite /mxtrace (bigD1 i) //=.
apply: ltr_pwDl; last first.
  apply: sumr_ge0 => i' _; rewrite mxE; apply: sumr_ge0 => j' _.
  by rewrite mxE -expr2 sqr_ge0.
rewrite mxE (bigD1 j) //= mxE -expr2.
apply: ltr_pwDl; first by rewrite exprn_even_gt0.
by apply: sumr_ge0 => j' _; rewrite mxE -expr2 sqr_ge0.
Qed.

Lemma cholesky_ok_posdef n (A L : 'M[R]_n) :
  A^T = A -> cholesky A = Ok L -> posdef A.
Proof.
move=> symA chol; split=> // w w0.
have LL := cholesky_mulmx_tr symA chol.
have uL := cholesky_unit chol.
have -> : w^T *m A *m w = (L^T *m w)^T *m (L^T *m w).
  by rewrite -LL trmx_mul trmxK !mulmxA.
apply: col_sqnorm_gt0; apply: contraNneq w0 => Lw0.
have uLT : L^T \in unitmx by rewrite unitmx_tr.
by rewrite -(mulKmx uLT w) Lw0 mulmx0.
Qed.

Lemma posdef_diag_gt0 n (A : 'M[R]_n) i : posdef A -> 0 < A i i.
Proof.
case=> _ /(_ (unit_col R i)) h.
have e0 : unit_col R i != 0.
  by apply/eqP => /colP /(_ i); rewrite /unit_col !mxE !eqxx; apply/eqP; rewrite oner_eq0.
have := h e0.
have -> : (unit_col R i)^T *m A *m unit_col R i = (A i i)%:M.
  rewrite /unit_col trmx_delta -mulmxA -colE -rowE.
  by apply/matrixP => p q; rewrite !ord1 !mxE eqxx mulr1n.
by rewrite mxE eqxx mulr1n.
Qed.

Lemma posdef_schur n (A : 'M[R]_(1 + n)) :
  posdef A ->
  let c := (Num.sqrt (A ord0 ord0))^-1 *: dlsubmx A in
  posdef (drsubmx A - c *m c^T).
Proof.
move=> pdA c; have a0 := posdef_diag_gt0 ord0 pdA.
case: pdA => symA pdA.
set a := A ord0 ord0 in a0 c *.
set b := dlsubmx A in c *; set D := drsubmx A.
have ccT : c *m c^T = a^-1 *: (b *m b^T).
  rewrite /c linearZ /= -scalemxAl -scalemxAr scalerA -invfM -expr2.
  by rewrite sqr_sqrtr // ltW.
have AE : A = block_mx a%:M b^T b D.
  rewrite -[LHS]submxK; congr (block_mx _ _ b D).
    by apply/matrixP => i j; rewrite !ord1 !mxE eqxx mulr1n lshift0.
  by rewrite /b trmx_dlsub symA.
split.
  by rewrite linearB /= trmx_mul trmxK trmx_drsub symA.
move=> w w0.
pose x : 'M[R]_1 := - a^-1 *: (b^T *m w).
have xT : x^T = - a^-1 *: (w^T *m b) by rewrite /x linearZ /= trmx_mul trmxK.
pose v : 'cV[R]_(1 + n) := col_mx x w.
have v0 : v != 0.
  apply: contraNneq w0 => /(congr1 dsubmx).
  by rewrite col_mxKd => ->; rewrite linear0.
have := pdA v v0.
have -> : v^T *m A *m v = w^T *m (D - c *m c^T) *m w; last by [].
rewrite {1}AE /v (@tr_col_mx _ 1 n 1) (@mul_row_block _ 1 1 n 1 n).
rewrite (@mul_row_col _ 1 1 n 1) xT.
rewrite mul_mx_scalar scalerA mulrN divff ?gt_eqF // scaleN1r addNr mul0mx add0r.
rewrite ccT mulmxBr mulmxBl mulmxDl -!scalemxAl -scalemxAr -!scalemxAl !mulmxA.
by rewrite scaleNr addrC.
Qed.

Lemma posdef_cholesky n (A : 'M[R]_n) :
  posdef A -> exists L, cholesky A = Ok L.
Proof.
elim: n A => [|n IHn] A pdA /=; first by exists A.
have a0 := posdef_diag_gt0 ord0 pdA.
rewrite leNgt a0 /=.
have [L' ->] := IHn _ (@posdef_schur n A pdA).
by eexists.
Qed.

End PosDefFacts.

(** *** The penalty and its proximal operator *)

Section ProxFacts.
Variable R : rcfType.
Implicit Types (a y mu : R).

Lemma shrink1_prox mu a y :
  0 <= mu ->
  mu * `|shrink1 mu a| + 2^-1 * (shrink1 mu a - a) ^+ 2
    + 2^-1 * (y - shrink1 mu a) ^+ 2
  <= mu * `|y| + 2^-1 * (y - a) ^+ 2.
Proof.
move=> mu0; rewrite /shrink1.
have hy : y <= `|y| := ler_norm y.
have hy' : - y <= `|y| by rewrite -normrN ler_norm.
case: (ltrgt0P a) => [a0|a0|->].
- rewrite gtr0_sg // !mul1r.
  case: (lerP (a - mu) 0) => h; first by rewrite normr0; nra.
  by rewrite (gtr0_norm h); nra.
- rewrite ltr0_sg // !mulN1r normrN.
  case: (lerP (- a - mu) 0) => h; first by rewrite oppr0 normr0; nra.
  by rewrite (gtr0_norm h); nra.
- by rewrite sgr0 !mul0r normr0; nra.
Qed.

Lemma shrink1_norm mu a : 0 <= mu -> `|shrink1 mu a| = `|a| - Num.min `|a| mu.
Proof.
move=> mu0; rewrite /shrink1 normrM.
case: (eqVneq a 0) => [->|a0].
  by rewrite sgr0 !normr0 mul0r min_l // subrr.
rewrite normr_sg a0 mul1r.
case: (lerP `|a| mu) => h.
  by rewrite max_r ?subr_le0 // normr0 subrr.
by rewrite max_l ?subr_ge0 ?ltW // gtr0_norm ?subr_gt0.
Qed.

Lemma shrink1_eq0 mu a : 0 <= mu -> (shrink1 mu a == 0) = (`|a| <= mu).
Proof.
move=> mu0; rewrite -normr_eq0 shrink1_norm // subr_eq0.
by rewrite eq_sym eq_minl.
Qed.

Lemma shrink1_sg mu a : 0 <= mu -> mu < `|a| -> Num.sg (shrink1 mu a) = Num.sg a.
Proof.
move=> mu0 h; rewrite /shrink1 sgrM sgr_id.
have d0 : 0 < `|a| - mu by rewrite subr_gt0.
have -> : Num.max (`|a| - mu) 0 = `|a| - mu by apply/max_idPl; exact: ltW.
by rewrite (gtr0_sg d0) mulr1.
Qed.

End ProxFacts.

(** X1. [proxg(x, mu, tau)] is the proximal point of [tau * g(., mu)] at [x]:
    whenever [mu * tau >= 0], for every [y] of the same shape
    [tau * g(p, mu) + |p - x|^2 / 2 + |y - p|^2 / 2 <= tau * g(y, mu) + |y - x|^2 / 2]
    with [p = proxg(x, mu, tau)] and [|.|^2] the sum of the squared
    entries; so [p] is the unique minimiser of [tau * g(., mu) + |. - x|^2 / 2]. *)
Theorem proxg_minimizes (R : rcfType) m n (x y : 'M[R]_(m, n)) (mu tau : R) :
  0 <= mu * tau ->
  tau * g (proxg x mu tau) mu
    + 2^-1 * (\sum_i \sum_j (proxg x mu tau i j - x i j) ^+ 2)
    + 2^-1 * (\sum_i \sum_j (y i j - proxg x mu tau i j) ^+ 2)
  <= tau * g y mu + 2^-1 * (\sum_i \sum_j (y i j - x i j) ^+ 2).
Proof.
move=> h; rewrite /g /proxg !mulrA [tau * mu]mulrC !mulr_sumr -!big_split /=.
apply: ler_sum => i _; rewrite !mulr_sumr -!big_split /=.
by apply: ler_sum => j _; rewrite !mxE; apply: shrink1_prox.
Qed.

(** The theorem at [x = [[3]]], [y = [[0]]], [mu = tau = 1]. *)
Lemma proxg_minimizes_witness :
  let x : 'M[Rdefinitions.R]_1 := 3%:R%:M in
  let y : 'M[Rdefinitions.R]_1 := 0 in
  1 * g (proxg x 1 1) 1
    + 2^-1 * (\sum_i \sum_j (proxg x 1 1 i j - x i j) ^+ 2)
    + 2^-1 * (\sum_i \sum_j (y i j - proxg x 1 1 i j) ^+ 2)
  <= 1 * g y 1 + 2^-1 * (\sum_i \sum_j (y i j - x i j) ^+ 2).
Proof.
apply: (@proxg_minimizes Rdefinitions.R 1 1 (3%:R%:M) 0 1 1).
by rewrite mulr1 ler01.
Defined.

(** X2. Whenever [mu * tau >= 0], one proximal step lowers the penalty
    [g(., mu)] by exactly [mu] times the sum over the entries of
    [min(|x_ij|, mu * tau)]. *)
Theorem g_proxg (R : rcfType) m n (x : 'M[R]_(m, n)) (mu tau : R) :
  0 <= mu * tau ->
  g (proxg x mu tau) mu
  = g x mu - mu * (\sum_i \sum_j Num.min `|x i j| (mu * tau)).
Proof.
move=> h; rewrite /g /proxg -mulrBr; congr (_ * _).
rewrite -sumrB; apply: eq_bigr => i _.
rewrite -sumrB; apply: eq_bigr => j _.
by rewrite !mxE shrink1_norm.
Qed.

Lemma g_proxg_witness :
  let x : 'M[Rdefinitions.R]_1 := 3%:R%:M in
  g (proxg x 1 1) 1 = g x 1 - 1 * (\sum_i \sum_j Num.min `|x i j| (1 * 1)).
Proof.
apply: (@g_proxg Rdefinitions.R 1 1 (3%:R%:M) 1 1).
by rewrite mulr1 ler01.
Defined.

(** X3. For [mu >= 0], an entry of [shrink(x, mu)] is zero exactly when the
    matching entry of [x] is at most [mu] in absolute value, and the other
    entries keep their sign. *)
Theorem shrink_support (R : rcfType) m n (x : 'M[R]_(m, n)) (mu : R) i j :
  0 <= mu ->
  (shrink x mu i j == 0) = (`|x i j| <= mu) /\
  (mu < `|x i j| -> Num.sg (shrink x mu i j) = Num.sg (x i j)).
Proof.
move=> mu0; rewrite !mxE; split; first exact: shrink1_eq0.
exact: shrink1_sg.
Qed.

Lemma shrink_support_witness :
  let x : 'M[Rdefinitions.R]_1 := 3%:R%:M in
  (shrink x 1 ord0 ord0 == 0) = (`|x ord0 ord0| <= 1) /\
  (1 < `|x ord0 ord0| -> Num.sg (shrink x 1 ord0 ord0) = Num.sg (x ord0 ord0)).
Proof.
exact: (@shrink_support Rdefinitions.R 1 1 (3%:R%:M) 1 ord0 ord0 ler01).
Defined.

(** *** Construction of the model *)

Section ConstructionFacts.

Variable R : rcfType.
Variable norm2 : forall m n, 'M[R]_(m, n) -> R.

Lemma posdef_add_psd n (A B : 'M[R]_n) (e : R) :
  posdef A -> psd B -> 0 <= e -> posdef (A + e *: B).
Proof.
move=> [symA pdA] [symB psB] e0; split.
  by rewrite linearD linearZ /= symA symB.
move=> w w0; rewrite mulmxDr mulmxDl mxE -scalemxAr -scalemxAl [X in _ + X]mxE.
by apply: ltr_wpDr; [rewrite mulr_ge0 | apply: pdA].
Qed.

Lemma psd_gram m n (G : 'M[R]_(m, n)) : psd (G *m G^T).
Proof.
split; first by rewrite trmx_mul trmxK.
by move=> w; have := gram_quad_ge0 G^T w; rewrite trmxK.
Qed.

Lemma cholesky_raises n (A : 'M[R]_n) e :
  cholesky A = Raise e -> e = LinAlgError.
Proof.
elim: n A e => [|n IH] A e //=.
case: ifP => [_ [<-] //|_].
case E: (cholesky (drsubmx (A : 'M_(1 + n)) - _)) => [L|e'] //= [<-].
exact: IH E.
Qed.

Lemma init_not_posdef K n (G : 'M[R]_(K, n)) (noise : 'M[R]_K) :
  (0 < K)%N -> (0 < n)%N -> noise^T = noise -> ~ posdef noise ->
  __init__ norm2 G noise = Raise LinAlgError.
Proof.
move=> K0 n0 sym npd; rewrite /__init__ /linalg_norm2.
rewrite !eqn0Ngt K0 n0 /= /__init__vars.
case E: (cholesky noise) => [wf|e] /=.
  by case: npd; apply: cholesky_ok_posdef E.
by rewrite (cholesky_raises E).
Qed.

Lemma init_zero_norm K n (G : 'M[R]_(K, n)) (noise : 'M[R]_K) :
  (0 < K)%N -> (0 < n)%N -> posdef noise -> norm2 G = 0 ->
  __init__ norm2 G noise = Raise ValueError.
Proof.
move=> K0 n0 pd s0; rewrite /__init__ /linalg_norm2.
rewrite !eqn0Ngt K0 n0 /= /__init__vars /np_idiv s0 eqxx /=.
rewrite !eqn0Ngt K0 n0 /=.
by have [wf ->] := posdef_cholesky pd.
Qed.

Lemma init_ok K n (G : 'M[R]_(K, n)) (noise : 'M[R]_K) :
  (0 < K)%N -> (0 < n)%N -> posdef noise ->
  norm2 G != 0 -> G != 0 ->
  exists d wf Gtilde,
    [/\ __init__ norm2 G noise = Ok d,
        lead_field_scaling d = norm2 G /\ lead_field d = (norm2 G)^-1 *: G,
        cholesky noise = Ok wf /\ wf *m Gtilde = lead_field d,
        0 < \tr (Gtilde *m Gtilde^T) /\
        eta d = Finite (K%:R / \tr (Gtilde *m Gtilde^T))
      & init_sigma_b d
        = Arr (noise + (K%:R / \tr (Gtilde *m Gtilde^T))
                         *: (lead_field d *m (lead_field d)^T)) /\
        posdef (noise + (K%:R / \tr (Gtilde *m Gtilde^T))
                         *: (lead_field d *m (lead_field d)^T))].
Proof.
move=> K0 n0 pd s0 G0; rewrite /__init__ /linalg_norm2.
rewrite !eqn0Ngt K0 n0 /= /__init__vars /np_idiv s0 /=.
have [wf chol] := posdef_cholesky pd; rewrite chol /=.
have uwf := cholesky_unit chol.
rewrite /linalg_solve uwf /=.
set G' := \matrix_(i, j) _.
have G'E : G' = (norm2 G)^-1 *: G.
  by apply/matrixP => i j; rewrite !mxE mulrC.
set Gt := invmx wf *m G'.
have Gt0 : Gt != 0.
  apply: contraNneq G0 => /(congr1 (mulmx wf)).
  rewrite mulKVmx // mulmx0 G'E => /(congr1 (fun A => norm2 G *: A)) /=.
  by rewrite scalerA divff // scale1r scaler0 => /eqP.
have tr0 := trace_gram_gt0 Gt0.
rewrite /np_true_divide gt_eqF //=.
eexists; exists wf, Gt; split=> //=.
- by rewrite mulKVmx.
- split=> //; apply: posdef_add_psd => //; first exact: psd_gram.
  by rewrite divr_ge0 ?ler0n // ltW.
Qed.

End ConstructionFacts.

(** The Frobenius norm, which is the spectral norm on matrices of rank one;
    it is the norm the examples below are run with. *)
Definition frobenius (R : rcfType) m n (A : 'M[R]_(m, n)) : R :=
  Num.sqrt (\sum_i \sum_j A i j ^+ 2).

Lemma frobenius_eq0 (R : rcfType) m n (A : 'M[R]_(m, n)) :
  (frobenius A == 0) = (A == 0).
Proof.
apply/idP/idP; last first.
  move/eqP->; rewrite /frobenius big1 ?sqrtr0 // => i _.
  by rewrite big1 // => j _; rewrite mxE expr0n.
rewrite sqrtr_eq0 => h.
have h0 : \sum_i \sum_j A i j ^+ 2 == 0.
  rewrite eq_le h /=; apply: sumr_ge0 => i _.
  by apply: sumr_ge0 => j _; rewrite sqr_ge0.
apply/eqP/matrixP => i j; rewrite mxE.
have nn i' : true -> 0 <= \sum_j A i' j ^+ 2.
  by move=> _; apply: sumr_ge0 => j' _; rewrite sqr_ge0.
move: h0; rewrite (psumr_eq0 _ nn).
move/allP/(_ i); rewrite mem_index_enum => /(_ isT) /=.
have nn' j' : true -> 0 <= A i j' ^+ 2 by rewrite sqr_ge0.
rewrite (psumr_eq0 _ nn').
move/allP/(_ j); rewrite mem_index_enum => /(_ isT) /=.
by rewrite sqrf_eq0 => /eqP.
Qed.

(** X4. Construction of a [DstRF] with a symmetric noise covariance (and a
    lead field with at least one sensor and one source column) raises
    [LinAlgError] when the noise covariance is not positive definite, and
    [ValueError] when the noise covariance is positive definite but the
    lead field has norm zero: the division by the zero norm does not raise,
    the non-finite lead field is rejected by [linalg.solve]. *)
Theorem init_fails (R : rcfType) (norm2 : forall m n, 'M[R]_(m, n) -> R)
    K n (G : 'M[R]_(K, n)) (noise : 'M[R]_K) :
  (0 < K)%N -> (0 < n)%N -> noise^T = noise ->
  (~ posdef noise -> __init__ norm2 G noise = Raise LinAlgError) /\
  (posdef noise -> norm2 _ _ G = 0 -> __init__ norm2 G noise = Raise ValueError).
Proof.
move=> K0 n0 sym; split; first exact: init_not_posdef.
exact: init_zero_norm.
Qed.

(** A zero 1 x 1 lead field with unit noise covariance. *)
Lemma init_fails_witness :
  __init__ (@frobenius _) (0 : 'M[Rdefinitions.R]_1) 1%:M = Raise ValueError.
Proof.
have [_ h] := @init_fails Rdefinitions.R (@frobenius _) 1 1 0 1%:M
                isT isT (trmx1 _ _).
by apply: h; [apply: posdef1 | apply/eqP; rewrite frobenius_eq0].
Defined.

(** X5. With a positive definite noise covariance and a non-zero lead field
    (the norm routine vanishing on the zero matrix only), construction
    succeeds: the stored lead field is the input divided by its norm,
    [eta] is the finite positive number [K / trace(Gtilde GtildeT)] with
    [Gtilde] the solution of [wf Gtilde = lead_field] for the Cholesky
    factor [wf] of the noise covariance, and [init_sigma_b] is
    [noise + eta * lead_field lead_fieldT], a positive definite matrix. *)
Theorem init_succeeds (R : rcfType) (norm2 : forall m n, 'M[R]_(m, n) -> R)
    K n (G : 'M[R]_(K, n)) (noise : 'M[R]_K) :
  (0 < K)%N -> (0 < n)%N -> posdef noise ->
  (forall A : 'M[R]_(K, n), (norm2 _ _ A == 0) = (A == 0)) -> G != 0 ->
  exists d wf Gtilde,
    [/\ __init__ norm2 G noise = Ok d,
        lead_field_scaling d = norm2 _ _ G /\
        lead_field d = (norm2 _ _ G)^-1 *: G,
        cholesky noise = Ok wf /\ wf *m Gtilde = lead_field d,
        0 < \tr (Gtilde *m Gtilde^T) /\
        eta d = Finite (K%:R / \tr (Gtilde *m Gtilde^T))
      & init_sigma_b d
        = Arr (noise + (K%:R / \tr (Gtilde *m Gtilde^T))
                         *: (lead_field d *m (lead_field d)^T)) /\
        posdef (noise + (K%:R / \tr (Gtilde *m Gtilde^T))
                         *: (lead_field d *m (lead_field d)^T))].
Proof.
move=> K0 n0 pd def G0; apply: init_ok => //.
by rewrite def.
Qed.

(** The 1 x 1 lead field [[1]] with unit noise covariance. *)
Lemma init_succeeds_witness :
  exists d, __init__ (@frobenius _) (1%:M : 'M[Rdefinitions.R]_1) 1%:M = Ok d.
Proof.
have [d [wf [Gt [h _ _ _ _]]]] :=
  @init_succeeds Rdefinitions.R (@frobenius _) 1 1 1%:M 1%:M
    isT isT (posdef1 _ _) (@frobenius_eq0 _ 1 1) (oner_neq0 _).
by exists d.
Defined.

(** *** The Champagne steps *)

Section LoopFacts.

Variables (S I : Type) (body : S -> I -> result S).

Lemma for_loop_raise e s :
  foldl (fun acc i => st <- acc ;; body st i) (Raise e) s = Raise e.
Proof. by elim: s. Qed.

Lemma for_loop_cons i s st :
  for_loop body (i :: s) st = (st' <- body st i ;; for_loop body s st').
Proof.
by rewrite /for_loop /=; case: (body st i) => [st'|e] //=; rewrite for_loop_raise.
Qed.

Lemma for_loop_cat s1 s2 st :
  for_loop body (s1 ++ s2) st
  = (st' <- for_loop body s1 st ;; for_loop body s2 st').
Proof.
rewrite /for_loop foldl_cat.
by case: (foldl _ _ s1) => [st'|e] //=; rewrite for_loop_raise.
Qed.

Lemma for_loop_rcons s i st :
  for_loop body (rcons s i) st
  = (st' <- for_loop body s st ;; body st' i).
Proof. by rewrite -cats1 for_loop_cat; case: (for_loop body s st). Qed.

End LoopFacts.

Section SolveFacts.

Variable R : rcfType.
Variable eig : forall n, 'M[R]_n -> 'rV[R]_n * 'M[R]_n.
Variable compute_gamma_c : 'M[R]_3 -> 'M[R]_3 -> 'M[R]_3 -> result 'M[R]_3.
Variable key : eqType.
Variables (K N dc P : nat).
Variable G : 'M[R]_(K, N * dc).
Variable noise : 'M[R]_K.
Variable use_optimized : bool.

Local Notation state := (champagne_state R K N dc).
Local Notation step := (source_step eig compute_gamma_c G use_optimized).

(** The data covariance the source covariances [gamma] of the sources
    [s] account for. *)
Definition sigma_of (gamma : {ffun 'I_N -> 'M[R]_dc}) (s : seq 'I_N) : 'M[R]_K :=
  noise + \sum_(i <- s) col_block G i *m (gamma i *m (col_block G i)^T).

Lemma source_step_inv lhat ytilde (st st' : state) i done :
  i \notin done -> st.2 = sigma_of st.1 done ->
  step lhat ytilde st i = Ok st' ->
  st'.2 = sigma_of st'.1 (rcons done i).
Proof.
case: st => gamma sigma /= ni ->; rewrite /source_step.
case: (update_gamma _ _ _ _) => [g'|e] //= [<-] /=.
rewrite /sigma_of -cats1 big_cat big_seq1 /= ffunE eqxx addrA; congr (_ + _ + _).
rewrite !big_seq; apply: eq_bigr => j jd.
by rewrite ffunE; case: eqP => // ji; move: ni; rewrite -ji jd.
Qed.

Lemma source_loop_inv lhat ytilde s done (st st' : state) :
  uniq (done ++ s) -> st.2 = sigma_of st.1 done ->
  for_loop (step lhat ytilde) s st = Ok st' ->
  st'.2 = sigma_of st'.1 (done ++ s).
Proof.
elim: s done st => [|i s IH] done st.
  by rewrite cats0 => _ h [<-].
rewrite -cat_rcons for_loop_cons => un inv.
case E: (step _ _ _ _) => [st1|e] //= run.
apply: IH run => //.
apply: source_step_inv E => //.
by move: un; rewrite cat_uniq rcons_uniq => /and3P [/andP []].
Qed.

Lemma champagne_step_inv yhat (st st' : state) it :
  champagne_step eig compute_gamma_c G noise use_optimized yhat st it = Ok st' ->
  st'.2 = noise + \sum_i col_block G i *m (st'.1 i *m (col_block G i)^T).
Proof.
case: st => gamma sigma; rewrite /champagne_step.
case: (cholesky _) => [Lc|e] //=.
case: (linalg_solve Lc G) => [lhat|e] //=.
case: (linalg_solve Lc yhat) => [ytilde|e] //= run.
have := @source_loop_inv lhat ytilde (enum 'I_N) [::] _ _ _ _ run.
rewrite /sigma_of /= big_nil addr0 enum_uniq => /(_ isT erefl) ->.
by rewrite big_enum.
Qed.

Local Notation cstep := (champagne_step eig compute_gamma_c G noise use_optimized).

Lemma champagne_loop_inv yhat n (st st' : state) :
  (0 < n)%N -> for_loop (cstep yhat) (iota 0 n) st = Ok st' ->
  st'.2 = noise + \sum_i col_block G i *m (st'.1 i *m (col_block G i)^T).
Proof.
case: n => // n _; rewrite -addn1 iotaD /= cats1 for_loop_rcons.
case: (for_loop _ _ _) => [st1|e] //=.
exact: champagne_step_inv.
Qed.

Local Notation sstate := (solve_state R key K N dc).
Local Notation strial :=
  (@solve_trial R eig compute_gamma_c key K N dc P G noise use_optimized).

(** [Sigma_b[k]] is the data covariance [Gamma[k]] accounts for. *)
Definition consistent (self : sstate) (k : key) : Prop :=
  exists gamma sigma,
    [/\ Gamma self k = Some gamma, Sigma_b self k = Some sigma
      & sigma = noise + \sum_i col_block G i *m (gamma i *m (col_block G i)^T)].

Lemma solve_trial_frame n theta (self self' : sstate) tr k :
  strial n theta self tr = Ok self' -> k != trial_key tr ->
  Gamma self' k = Gamma self k /\ Sigma_b self' k = Sigma_b self k.
Proof.
rewrite /solve_trial.
case: (cholesky _) => [yhat|e] //=.
case: (Gamma self _) => [gamma|] //=.
case: (Sigma_b self _) => [sigma|] //=.
case: (for_loop _ _ _) => [[g' s']|e] //= [<-] /= kk.
by rewrite /dict_set (negbTE kk).
Qed.

Lemma solve_trial_inv n theta (self self' : sstate) tr :
  (0 < n)%N -> strial n theta self tr = Ok self' ->
  consistent self' (trial_key tr).
Proof.
move=> n0; rewrite /solve_trial.
case: (cholesky _) => [yhat|e] //=.
case: (Gamma self _) => [gamma|] //=.
case: (Sigma_b self _) => [sigma|] //=.
case E: (for_loop _ _ _) => [[g' s']|e] //= [<-].
exists g', s'; split; rewrite /= /dict_set ?eqxx //.
exact: (champagne_loop_inv n0 E).
Qed.

Lemma solve_inv n theta data (self self' : sstate) k :
  (0 < n)%N ->
  _solve eig compute_gamma_c G noise use_optimized n data theta self = Ok self' ->
  k \in map (@trial_key R key K P) data -> consistent self' k.
Proof.
move=> n0; rewrite /_solve.
elim/last_ind: data self' => [|data tr IH] self' //.
rewrite for_loop_rcons map_rcons mem_rcons inE.
case E: (for_loop _ _ _) => [self1|e] //= run.
case: (eqVneq k (trial_key tr)) => [-> _|kk /= kin].
  exact: solve_trial_inv run.
have [gamma [sigma [hg hs hgs]]] := IH _ E kin.
have [fg fs] := solve_trial_frame run kk.
by exists gamma, sigma; split=> //; rewrite ?fg ?fs.
Qed.

Lemma col_block_mul (A : 'M[R]_K) (B : 'M[R]_(K, N * dc)) i :
  col_block (A *m B) i = A *m col_block B i.
Proof.
apply/matrixP => r j; rewrite !mxE; apply: eq_bigr => l _.
by rewrite !mxE.
Qed.

Lemma psd_conj m n (B : 'M[R]_(m, n)) (g : 'M[R]_n) :
  psd g -> psd (B *m (g *m B^T)).
Proof.
move=> [symg psg]; split.
  by rewrite !trmx_mul trmxK symg mulmxA.
move=> w.
have -> : w^T *m (B *m (g *m B^T)) *m w = (B^T *m w)^T *m g *m (B^T *m w).
  by rewrite trmx_mul trmxK !mulmxA.
exact: psg.
Qed.

Lemma psd_sum (I : Type) (s : seq I) n (F : I -> 'M[R]_n) :
  (forall i, psd (F i)) -> psd (\sum_(i <- s) F i).
Proof.
move=> psF; elim: s => [|i s [symS psS]].
  rewrite big_nil; split; first by rewrite trmx0.
  by move=> w; rewrite mulmx0 mul0mx mxE.
have [symi psi] := psF i; rewrite big_cons; split.
  by rewrite linearD /= symS symi.
by move=> w; rewrite mulmxDr mulmxDl mxE addr_ge0.
Qed.

Lemma posdef_sigma (gamma : {ffun 'I_N -> 'M[R]_dc}) :
  posdef noise -> (forall i, psd (gamma i)) ->
  posdef (noise + \sum_i col_block G i *m (gamma i *m (col_block G i)^T)).
Proof.
move=> pdn psg.
rewrite -[X in noise + X]scale1r; apply: posdef_add_psd => //.
by apply: psd_sum => i; apply: psd_conj.
Qed.

Section Success.

(** What the source covariance blocks satisfy before they are updated. *)
Variable Pg : 'M[R]_dc -> Prop.

Hypothesis update_ok :
  forall (i : 'I_N) (Lc ytilde : 'M[R]_K) (g : 'M[R]_dc),
    Lc \in unitmx -> Pg g ->
    let li := col_block (invmx Lc *m G) i in
    exists g',
      [/\ update_gamma eig compute_gamma_c use_optimized
            (li^T *m li) (g *m (ytilde^T *m li)^T) g = Ok g',
          Pg g' & psd g'].

Lemma source_loop_ok Lc ytilde s done (st : state) :
  Lc \in unitmx ->
  (forall i, Pg (st.1 i)) -> (forall i, i \in done -> psd (st.1 i)) ->
  exists st' : state,
    [/\ for_loop (step (invmx Lc *m G) ytilde) s st = Ok st',
        forall i, Pg (st'.1 i)
      & forall i, i \in done ++ s -> psd (st'.1 i)].
Proof.
move=> uLc; elim: s done st => [|i s IH] done st Pst psst.
  by exists st; split=> // j; rewrite cats0; apply: psst.
rewrite for_loop_cons /source_step; case: st Pst psst => gamma sigma /= Pst psst.
have [g' [-> Pg' psg']] := @update_ok i Lc ytilde (gamma i) uLc (Pst i).
rewrite /= -cat_rcons; apply: IH => /= j.
  by rewrite ffunE; case: ifP.
by rewrite mem_rcons inE ffunE; case: eqP => //= _; apply: psst.
Qed.

Lemma champagne_step_ok yhat (st : state) it :
  posdef noise -> posdef st.2 -> (forall i, Pg (st.1 i)) ->
  exists st' : state,
    [/\ cstep yhat st it = Ok st', posdef st'.2 & forall i, Pg (st'.1 i)].
Proof.
move=> pdn pds Pst; rewrite /champagne_step.
case: st pds Pst => gamma sigma /= pds Pst.
have [Lc chol] := posdef_cholesky pds; rewrite chol /=.
have uLc := cholesky_unit chol.
rewrite /linalg_solve uLc /=.
have [st' [run Pst' psst']] :=
  @source_loop_ok Lc (invmx Lc *m yhat) (enum 'I_N) [::] (gamma, noise)
     uLc Pst (fun i (h : i \in [::]) => False_ind _ (notF h)).
exists st'; split=> //.
have := @champagne_step_inv yhat (gamma, sigma) st' it.
rewrite /champagne_step chol /= /linalg_solve uLc /= => /(_ run) ->.
by apply: posdef_sigma => // i; apply: psst'; rewrite mem_enum.
Qed.

Lemma champagne_loop_ok yhat s (st : state) :
  posdef noise -> posdef st.2 -> (forall i, Pg (st.1 i)) ->
  exists st' : state,
    [/\ for_loop (cstep yhat) s st = Ok st', posdef st'.2
      & forall i, Pg (st'.1 i)].
Proof.
move=> pdn; elim: s st => [|it s IH] st pds Pst; first by exists st.
rewrite for_loop_cons.
have [st1 [-> pd1 P1]] := champagne_step_ok yhat it pdn pds Pst.
exact: IH.
Qed.

(** The empirical covariance of the residual of a trial, whose Cholesky
    factor [_solve] takes. *)
Definition resid_cov (theta : 'M[R]_(N * dc, P)) (tr : trial R key K P) : 'M[R]_K :=
  let y := meg tr - G *m theta *m (covariates tr)^T in y *m y^T.

Definition good (self : sstate) (k : key) : Prop :=
  exists gamma sigma,
    [/\ Gamma self k = Some gamma, Sigma_b self k = Some sigma, posdef sigma
      & forall i, Pg (gamma i)].

Fixpoint all_trials (Q : trial R key K P -> Prop) (data : seq (trial R key K P)) :
    Prop :=
  if data is tr :: data' then Q tr /\ all_trials Q data' else True.

Lemma all_trials_impl (Q Q' : trial R key K P -> Prop) data :
  (forall tr, Q tr -> Q' tr) -> all_trials Q data -> all_trials Q' data.
Proof. by move=> QQ'; elim: data => //= tr d IH [/QQ' ? /IH]. Qed.

Lemma solve_trial_ok n theta (self : sstate) tr :
  posdef noise -> posdef (resid_cov theta tr) -> good self (trial_key tr) ->
  exists self', strial n theta self tr = Ok self' /\ good self' (trial_key tr).
Proof.
move=> pdn pdC [gamma [sigma [hg hs pds Pgam]]]; rewrite /solve_trial.
have [yhat ->] := posdef_cholesky pdC; rewrite hg hs /=.
have [[g' s'] [-> /= pds' Pg']] :=
  @champagne_loop_ok yhat (iota 0 n) (gamma, sigma) pdn pds Pgam.
eexists; split; first by [].
by exists g', s'; split; rewrite /= /dict_set ?eqxx.
Qed.

Lemma solve_ok_gen (Qk : key -> Prop) n theta data (self : sstate) :
  posdef noise -> (forall k, Qk k -> good self k) ->
  all_trials (fun tr => posdef (resid_cov theta tr) /\ Qk (trial_key tr)) data ->
  exists self',
    _solve eig compute_gamma_c G noise use_optimized n data theta self = Ok self'
    /\ forall k, Qk k -> good self' k.
Proof.
move=> pdn; rewrite /_solve; elim: data self => [|tr d IH] self /= gd.
  by exists self.
case=> [[pdC Qtr] hd]; rewrite for_loop_cons.
have [self1 [run gd1]] := solve_trial_ok n pdn pdC (gd _ Qtr).
rewrite run /=; apply: IH => // k Qkk.
case: (eqVneq k (trial_key tr)) => [->//|kk].
have [fg fs] := solve_trial_frame run kk.
have [gamma [sigma [? ? ? ?]]] := gd _ Qkk.
by exists gamma, sigma; split; rewrite ?fg ?fs.
Qed.

Lemma solve_ok n theta data (self : sstate) :
  posdef noise ->
  all_trials (fun tr => posdef (resid_cov theta tr) /\ good self (trial_key tr))
    data ->
  exists self',
    _solve eig compute_gamma_c G noise use_optimized n data theta self = Ok self'
    /\ all_trials (fun tr => good self' (trial_key tr)) data.
Proof.
move=> pdn hd.
have [self' [run gd']] := @solve_ok_gen (good self) n theta data self pdn
                            (fun k h => h) hd.
exists self'; split=> //.
by apply: all_trials_impl hd => tr [_ /gd'].
Qed.

End Success.

End SolveFacts.

Section UpdateFacts.

Variable R : rcfType.
Variable eig : forall n, 'M[R]_n -> 'rV[R]_n * 'M[R]_n.
Variable compute_gamma_c : 'M[R]_3 -> 'M[R]_3 -> 'M[R]_3 -> result 'M[R]_3.

Lemma gram_entry_ge0 m n (x : 'M[R]_(m, n)) i : 0 <= (x *m x^T) i i.
Proof. by rewrite mxE; apply: sumr_ge0 => k _; rewrite mxE -expr2 sqr_ge0. Qed.

Lemma psd_scalar1 (q : R) : 0 <= q -> psd (q%:M : 'M[R]_1).
Proof.
move=> q0; split; first by rewrite tr_scalar_mx.
move=> w; rewrite -mulmxA mul_scalar_mx -scalemxAr mxE mulr_ge0 //.
by have := gram_entry_ge0 w^T 0; rewrite trmxK.
Qed.

(** The fixed-orientation update: a quotient of two square roots. *)
Lemma update_gamma_fixed T opt (li : 'cV[R]_T) (x : 'M[R]_(1, T)) (g : 'M[R]_1) :
  @update_gamma R eig compute_gamma_c 1 T opt (li^T *m li) x g
  = if li == 0 then Raise ZeroDivisionError
    else Ok (Num.sqrt ((x *m x^T) 0 0) / Num.sqrt ((li^T *m li) 0 0))%:M.
Proof.
rewrite /update_gamma /math_sqrt /py_truediv.
rewrite ltNge gram_entry_ge0 /=.
have z0 : 0 <= (li^T *m li) 0 0.
  by have := gram_entry_ge0 li^T 0; rewrite trmxK.
rewrite ltNge z0 /= sqrtr_eq0.
case: (eqVneq li 0) => [->|l0].
  by rewrite mulmx0 mxE lexx.
by rewrite leNgt col_sqnorm_gt0.
Qed.

Lemma update_ok_fixed K N (G : 'M[R]_(K, N * 1)) opt :
  (forall i : 'I_N, col_block G i != 0) ->
  forall (i : 'I_N) (Lc ytilde : 'M[R]_K) (g : 'M[R]_1),
    Lc \in unitmx -> True ->
    let li := col_block (invmx Lc *m G) i in
    exists g',
      [/\ update_gamma eig compute_gamma_c opt
            (li^T *m li) (g *m (ytilde^T *m li)^T) g = Ok g',
          True & psd g'].
Proof.
move=> G0 i Lc ytilde g uLc _ li.
rewrite update_gamma_fixed.
have -> : (li == 0) = false.
  apply/negbTE; rewrite /li col_block_mul.
  apply: contraNneq (G0 i) => /(congr1 (mulmx Lc)).
  by rewrite mulKVmx // mulmx0 => /eqP.
eexists; split=> //; apply: psd_scalar1.
by rewrite divr_ge0 // sqrtr_ge0.
Qed.

Lemma update_ok_free K N (G : 'M[R]_(K, N * 3)) :
  forall (i : 'I_N) (Lc ytilde : 'M[R]_K) (g : 'M[R]_3),
    Lc \in unitmx -> True ->
    let li := col_block (invmx Lc *m G) i in
    exists g',
      [/\ update_gamma eig compute_gamma_c false
            (li^T *m li) (g *m (ytilde^T *m li)^T) g = Ok g',
          True & psd g'].
Proof.
move=> i Lc ytilde g uLc _ li; eexists; split=> //=.
exact: compute_gamma_i_psd.
Qed.



Variable key : eqType.
Variables (K N P : nat).

Lemma source_loop_zero (G lhat : 'M[R]_(K, N * 1)) opt ytilde s
    (st : champagne_state R K N 1) :
  has (fun i => col_block lhat i == 0) s ->
  for_loop (source_step eig compute_gamma_c G opt lhat ytilde) s st
  = Raise ZeroDivisionError.
Proof.
elim: s st => [|i s IH] [gamma sigma] //= h.
rewrite for_loop_cons /source_step update_gamma_fixed.
by case: eqP h => //= _ /IH ->.
Qed.

Lemma solve_zero_column (G : 'M[R]_(K, N * 1)) noise opt n
    (tr : trial R key K P) data theta (self : solve_state R key K N 1)
    gamma sigma i :
  (0 < n)%N -> posdef (resid_cov G theta tr) ->
  Gamma self (trial_key tr) = Some gamma ->
  Sigma_b self (trial_key tr) = Some sigma -> posdef sigma ->
  col_block G i = 0 ->
  _solve eig compute_gamma_c G noise opt n (tr :: data) theta self
  = Raise ZeroDivisionError.
Proof.
case: n => // n _ pdC hg hs pds Gi0.
rewrite /_solve for_loop_cons /solve_trial.
have [yhat ->] := posdef_cholesky pdC; rewrite hg hs /=.
rewrite for_loop_cons /champagne_step.
have [Lc chol] := posdef_cholesky pds; rewrite chol /=.
rewrite /linalg_solve (cholesky_unit chol) /= source_loop_zero //.
apply/hasP; exists i; first by rewrite mem_enum.
by rewrite col_block_mul Gi0 mulmx0.
Qed.

Section Unsupported.

Variable dc : nat.
Hypothesis dc1 : dc != 1%N.
Hypothesis dc3 : dc != 3%N.
Variables (G : 'M[R]_(K, N * dc)) (noise : 'M[R]_K) (opt : bool).




End Unsupported.

End UpdateFacts.

(** A one-sensor, one-source, one-trial example over the Standard Library's
    reals, on which the theorems on [_solve] are run: the trial holds one
    time point with sensor value 1, the coefficients are zero, and every
    covariance the model holds is the identity. *)

Definition ex_compute_gamma_c (z a gamma : 'M[Rdefinitions.R]_3) :
    result 'M[Rdefinitions.R]_3 := Ok gamma.

Definition ex_trial : trial Rdefinitions.R unit 1 1 :=
  {| trial_key := tt; n_times := 1; meg := 1%:M; covariates := 0 |}.

Definition ex_self dc : solve_state Rdefinitions.R unit 1 1 dc :=
  {| Gamma := fun _ => Some [ffun _ => 1%:M]; Sigma_b := fun _ => Some 1%:M |}.

Lemma ex_resid_cov dc (G : 'M[Rdefinitions.R]_(1, 1 * dc)) :
  resid_cov G 0 ex_trial = 1%:M.
Proof. by rewrite /resid_cov /= mulmx0 mul0mx subr0 trmx1 mulmx1. Qed.

Lemma ex_good dc (Pg : 'M[Rdefinitions.R]_dc -> Prop) :
  Pg 1%:M -> good Pg (ex_self dc) tt.
Proof.
move=> P1; exists [ffun _ => 1%:M], 1%:M; split=> //; first exact: posdef1.
by move=> i; rewrite ffunE.
Qed.

Lemma ex_data_ok dc (G : 'M[Rdefinitions.R]_(1, 1 * dc)) Pg :
  Pg 1%:M ->
  all_trials (fun tr => posdef (resid_cov G 0 tr) /\ good Pg (ex_self dc) (trial_key tr))
    [:: ex_trial].
Proof.
move=> P1; split=> //; split; last exact: ex_good.
by rewrite ex_resid_cov; apply: posdef1.
Qed.

Lemma ex_col_neq0 (i : 'I_1) :
  col_block (const_mx 1 : 'M[Rdefinitions.R]_(1, 1 * 1)) i != 0.
Proof.
apply/eqP => /matrixP /(_ ord0 ord0); rewrite !mxE => /eqP.
by rewrite oner_eq0.
Qed.

(** X6. After a successful [_solve] with at least one Champagne iteration,
    for every key of [data] the stored data covariance is the noise
    covariance plus the sum over the sources [i] of
    [G_i . Gamma[key][i] . G_iT], with [G_i] the lead-field columns of
    source [i] and [Gamma[key]] the stored source covariances. *)
Theorem solve_sigma_b_accounts (R : rcfType)
    (eig : forall n, 'M[R]_n -> 'rV[R]_n * 'M[R]_n)
    (compute_gamma_c : 'M[R]_3 -> 'M[R]_3 -> 'M[R]_3 -> result 'M[R]_3)
    (key : eqType) K N dc P (G : 'M[R]_(K, N * dc)) (noise : 'M[R]_K)
    (use_optimized : bool) (n_iterc : nat) (data : seq (trial R key K P))
    (theta : 'M[R]_(N * dc, P)) (self self' : solve_state R key K N dc) :
  (0 < n_iterc)%N ->
  _solve eig compute_gamma_c G noise use_optimized n_iterc data theta self
  = Ok self' ->
  forall k, k \in map (@trial_key R key K P) data ->
  exists gamma sigma,
    [/\ Gamma self' k = Some gamma, Sigma_b self' k = Some sigma
      & sigma = noise + \sum_i col_block G i *m (gamma i *m (col_block G i)^T)].
Proof. by move=> n0 run k kin; apply: solve_inv run kin. Qed.

(** Two iterations on the example, fixed orientation. *)
Lemma solve_sigma_b_accounts_witness :
  exists self' gamma,
    [/\ _solve (@eig_diag _) ex_compute_gamma_c
          (const_mx 1 : 'M_(1, 1 * 1)) 1%:M true 2 [:: ex_trial] 0 (ex_self 1)
        = Ok self',
        Gamma self' tt = Some gamma
      & Sigma_b self' tt
        = Some (1%:M + \sum_i col_block (const_mx 1 : 'M_(1, 1 * 1)) i
                          *m (gamma i *m (col_block (const_mx 1 : 'M_(1, 1 * 1)) i)^T))].
Proof.
have [self' [run _]] :=
  solve_ok (update_ok_fixed (@eig_diag _) ex_compute_gamma_c true ex_col_neq0)
    2 (posdef1 _ _) (@ex_data_ok 1 (const_mx 1) _ I).
have [gamma [sigma [hg hs hE]]] :=
  @solve_sigma_b_accounts _ _ _ _ _ _ _ _ _ _ _ 2 _ _ _ _ isT run tt
    (mem_head _ _).
by exists self', gamma; split=> //; rewrite hs hE.
Defined.

(** X7. Fixed orientation ([dc = 1]).  If the noise covariance is positive
    definite, no lead-field column is zero, and for every trial the
    residual covariance is positive definite and [Gamma], [Sigma_b] hold
    an entry for its key with [Sigma_b[key]] positive definite, then
    [_solve] returns, for every number of iterations, and every
    [Sigma_b[key]] it stores is again positive definite. *)
Theorem solve_fixed_succeeds (R : rcfType)
    (eig : forall n, 'M[R]_n -> 'rV[R]_n * 'M[R]_n)
    (compute_gamma_c : 'M[R]_3 -> 'M[R]_3 -> 'M[R]_3 -> result 'M[R]_3)
    (key : eqType) K N P (G : 'M[R]_(K, N * 1)) (noise : 'M[R]_K)
    (use_optimized : bool) (n_iterc : nat) (data : seq (trial R key K P))
    (theta : 'M[R]_(N * 1, P)) (self : solve_state R key K N 1) :
  posdef noise ->
  (forall i : 'I_N, col_block G i != 0) ->
  all_trials (fun tr => posdef (resid_cov G theta tr) /\
                        good (fun _ => True) self (trial_key tr)) data ->
  exists self',
    _solve eig compute_gamma_c G noise use_optimized n_iterc data theta self
    = Ok self' /\
    all_trials (fun tr => good (fun _ => True) self' (trial_key tr)) data.
Proof.
move=> pdn G0 hd.
exact: (solve_ok (update_ok_fixed eig compute_gamma_c use_optimized G0)
          n_iterc pdn hd).
Qed.

(** The example with the lead field [[1]]. *)
Lemma solve_fixed_succeeds_witness :
  exists self',
    _solve (@eig_diag _) ex_compute_gamma_c
      (const_mx 1 : 'M_(1, 1 * 1)) 1%:M true 2 [:: ex_trial] 0 (ex_self 1)
    = Ok self'.
Proof.
have [self' [run _]] :=
  @solve_fixed_succeeds _ (@eig_diag _) ex_compute_gamma_c _ _ _ _
    (const_mx 1) 1%:M true 2 [:: ex_trial] 0 (ex_self 1)
    (posdef1 _ _) ex_col_neq0 (@ex_data_ok 1 (const_mx 1) _ I).
by exists self'.
Defined.

(** X8. Fixed orientation ([dc = 1]).  If some lead-field column is zero,
    [_solve] with at least one iteration raises [ZeroDivisionError] on the
    first trial, as soon as that trial's residual covariance and stored
    [Sigma_b] are positive definite: the update divides by the norm of the
    whitened column. *)
Theorem solve_fixed_zero_column (R : rcfType)
    (eig : forall n, 'M[R]_n -> 'rV[R]_n * 'M[R]_n)
    (compute_gamma_c : 'M[R]_3 -> 'M[R]_3 -> 'M[R]_3 -> result 'M[R]_3)
    (key : eqType) K N P (G : 'M[R]_(K, N * 1)) (noise : 'M[R]_K)
    (use_optimized : bool) (n_iterc : nat)
    (tr : trial R key K P) (data : seq (trial R key K P))
    (theta : 'M[R]_(N * 1, P)) (self : solve_state R key K N 1)
    gamma sigma (i : 'I_N) :
  (0 < n_iterc)%N -> posdef (resid_cov G theta tr) ->
  Gamma self (trial_key tr) = Some gamma ->
  Sigma_b self (trial_key tr) = Some sigma -> posdef sigma ->
  col_block G i = 0 ->
  _solve eig compute_gamma_c G noise use_optimized n_iterc (tr :: data) theta self
  = Raise ZeroDivisionError.
Proof. exact: solve_zero_column. Qed.

(** The example with the lead field [[0]]. *)
Lemma solve_fixed_zero_column_witness :
  _solve (@eig_diag _) ex_compute_gamma_c
    (0 : 'M_(1, 1 * 1)) 1%:M true 2 [:: ex_trial] 0 (ex_self 1)
  = Raise ZeroDivisionError.
Proof.
apply: (@solve_fixed_zero_column _ (@eig_diag _) ex_compute_gamma_c _ _ _ _
          0 1%:M true 2 ex_trial [::] 0 (ex_self 1)
          [ffun _ => 1%:M] 1%:M ord0 isT _ erefl erefl (posdef1 _ _)).
- by rewrite ex_resid_cov; apply: posdef1.
- by apply/matrixP => r j; rewrite !mxE.
Defined.

(** X9. Free orientation ([dc = 3]) with the pure numpy update
    ([use_optimized = False]).  If the noise covariance is positive definite
    and for every trial the residual covariance is positive definite and
    [Gamma], [Sigma_b] hold an entry for its key with [Sigma_b[key]]
    positive definite, then [_solve] returns, whatever the lead field and
    whatever [linalg.eig] computes, and every [Sigma_b[key]] it stores is
    again positive definite. *)
Theorem solve_free_succeeds (R : rcfType)
    (eig : forall n, 'M[R]_n -> 'rV[R]_n * 'M[R]_n)
    (compute_gamma_c : 'M[R]_3 -> 'M[R]_3 -> 'M[R]_3 -> result 'M[R]_3)
    (key : eqType) K N P (G : 'M[R]_(K, N * 3)) (noise : 'M[R]_K)
    (n_iterc : nat) (data : seq (trial R key K P))
    (theta : 'M[R]_(N * 3, P)) (self : solve_state R key K N 3) :
  posdef noise ->
  all_trials (fun tr => posdef (resid_cov G theta tr) /\
                        good (fun _ => True) self (trial_key tr)) data ->
  exists self',
    _solve eig compute_gamma_c G noise false n_iterc data theta self = Ok self' /\
    all_trials (fun tr => good (fun _ => True) self' (trial_key tr)) data.
Proof.
move=> pdn hd.
exact: (solve_ok (update_ok_free eig compute_gamma_c G) n_iterc pdn hd).
Qed.

(** The example with one source of three orientations. *)
Lemma solve_free_succeeds_witness :
  exists self',
    _solve (@eig_diag _) ex_compute_gamma_c
      (const_mx 1 : 'M_(1, 1 * 3)) 1%:M false 2 [:: ex_trial] 0 (ex_self 3)
    = Ok self'.
Proof.
have [self' [run _]] :=
  @solve_free_succeeds _ (@eig_diag _) ex_compute_gamma_c _ _ _ _
    (const_mx 1) 1%:M 2 [:: ex_trial] 0 (ex_self 3)
    (posdef1 _ _) (@ex_data_ok 3 (const_mx 1) _ I).
by exists self'.
Defined.



(** *** The smooth part of the objective *)

Section ObjectiveFacts.

Variable R : rcfType.

Lemma sum_inner1dE m n (a b : 'M[R]_(m, n)) : sum_inner1d a b = \tr (a *m b^T).
Proof.
rewrite /sum_inner1d /mxtrace; apply: eq_bigr => i _.
by rewrite mxE; apply: eq_bigr => j _; rewrite mxE.
Qed.

Lemma sum_sqE m n (y : 'M[R]_(m, n)) : sum_sq y = \tr (y *m y^T).
Proof.
rewrite -sum_inner1dE /sum_sq /sum_inner1d; apply: eq_bigr => i _.
by apply: eq_bigr => j _; rewrite expr2.
Qed.

Lemma sum_sq_ge0 m n (y : 'M[R]_(m, n)) : 0 <= sum_sq y.
Proof.
by apply: sumr_ge0 => i _; apply: sumr_ge0 => j _; rewrite sqr_ge0.
Qed.

(** The expansion of a squared residual along a direction. *)
Lemma sum_sq_sub m n (a d : 'M[R]_(m, n)) :
  sum_sq (a - d) = sum_sq a - 2 * \tr (a *m d^T) + sum_sq d.
Proof.
rewrite !sum_sqE linearB /= mulmxBl !mulmxBr !linearB /=.
rewrite -[\tr (d *m a^T)]mxtrace_tr trmx_mul trmxK.
by rewrite mulr2n mulrDl mul1r opprB opprD addrA addrAC -!addrA; ring.
Qed.

Lemma foldl_sum (V : zmodType) (I : Type) (h : I -> V) s v0 :
  foldl (fun v p => v + h p) v0 s = v0 + \sum_(p <- s) h p.
Proof.
elim: s v0 => [|p s IH] v0 /=; first by rewrite big_nil addr0.
by rewrite IH big_cons addrA.
Qed.

Lemma mapM_map (A : eqType) (B : Type) (h : A -> result B) (h' : A -> B) s :
  (forall a, a \in s -> h a = Ok (h' a)) -> mapM h s = Ok (map h' s).
Proof.
elim: s => [|a s IH] //= hs.
rewrite hs ?mem_head //= IH // => a' a's.
by apply: hs; rewrite inE a's orbT.
Qed.

Lemma mem_zipl (A B : eqType) (s : seq A) (t : seq B) x y :
  (x, y) \in zip s t -> x \in s.
Proof.
elim: s t => [|a s IH] [|b t] //=; rewrite !inE xpair_eqE.
by case/orP => [/andP [-> //]|/IH ->]; rewrite orbT.
Qed.

Variable key : eqType.
Variables (K N dc P : nat).
Variable G : 'M[R]_(K, N * dc).

Local Notation sstate := (solve_state R key K N dc).
Local Notation strial := (trial R key K P).

(** The Cholesky factor [_construct_f] and [eval_cv] take for a key. *)
Definition factor (self : sstate) (k : key) : result 'M[R]_K :=
  sigma_b <- of_option KeyError (Sigma_b self k) ;; cholesky sigma_b.

Lemma factors_unit (self : sstate) keys Ls :
  mapM (factor self) keys = Ok Ls ->
  size Ls = size keys /\ forall l, l \in Ls -> l \in unitmx.
Proof.
elim: keys Ls => [|k keys IH] Ls /=; first by case=> <-.
case E: (factor self k) => [l|e] //=.
case E': (mapM _ _) => [Ls'|e] //= [<-].
have [sz un] := IH _ E'; split; first by rewrite /= sz.
move=> l'; rewrite inE => /orP [/eqP ->|/un //].
move: E; rewrite /factor; case: (Sigma_b self k) => [sigma|] //=.
exact: cholesky_unit.
Qed.

(** The whitened residual of a trial, and the objective and gradient in
    terms of it. *)
Definition wresid (theta : 'M[R]_(N * dc, P)) (q : 'M[R]_K * strial) :
    'M[R]_(K, n_times q.2) :=
  invmx q.1 *m (meg q.2 - G *m theta *m (covariates q.2)^T).

Definition part_of (q : 'M[R]_K * strial) :
    ('M[R]_(K, N * dc) * R) * ('M[R]_(K, P) * ('M[R]_K * 'M[R]_(K, P) * 'M[R]_P)) :=
  let W := invmx q.1 in
  let st := stats_of q.2 in
  ((W *m G, \tr (W *m (W *m st.1.1)^T)), (W *m st.1.2, st)).

Lemma f_part theta (q : 'M[R]_K * strial) :
  q.1 \in unitmx ->
  let p := part_of q in
  f p.1.1 theta p.1.2 p.2.1 p.2.2.2 = 2^-1 * sum_sq (wresid theta q).
Proof.
move=> uq /=; rewrite /f /wresid; congr (_ * _).
set W := invmx q.1; set b := meg q.2; set E := covariates q.2.
rewrite mulmxBr sum_sq_sub !sum_inner1dE !sum_sqE.
rewrite !trmx_mul !trmxK !mulmxA.
by congr (_ - _ + _).
Qed.

Definition gpart (theta : 'M[R]_(N * dc, P)) (q : 'M[R]_K * strial) :
    'M[R]_(N * dc, P) :=
  let p := part_of q in gradf p.1.1 theta p.2.1 p.2.2.2.

Lemma parts_nf Ls (data : seq strial) :
  size Ls = size data ->
  let pre := [seq stats_of tr | tr <- data] in
  zip (zip [seq invmx l *m G | l <- Ls]
           [seq \tr (invmx p.1 *m (invmx p.1 *m p.2.1.1)^T) | p <- zip Ls pre])
      (zip [seq invmx p.1 *m p.2.1.2 | p <- zip Ls pre] pre)
  = [seq part_of q | q <- zip Ls data].
Proof.
by elim: Ls data => [|l Ls IH] [|tr data] //= [/IH ->].
Qed.

Lemma funct_nf Ls (data : seq strial) theta :
  (forall l, l \in Ls -> l \in unitmx) ->
  \sum_(p <- [seq part_of q | q <- zip Ls data])
     f p.1.1 theta p.1.2 p.2.1 p.2.2.2
  = \sum_(q <- zip Ls data) 2^-1 * sum_sq (wresid theta q).
Proof.
elim: Ls data => [|l Ls IH] [|tr data] un; rewrite /= ?big_nil //.
rewrite !big_cons IH; first by move=> l' h; apply: un; rewrite inE h orbT.
by rewrite f_part //=; apply: un; rewrite mem_head.
Qed.

Lemma construct_f_nf (self : sstate) (data : seq strial) c :
  _construct_f G self data = Ok c ->
  exists Ls,
    [/\ mapM (factor self) [seq trial_key tr | tr <- data] = Ok Ls,
        forall theta,
          funct c theta = \sum_(q <- zip Ls data) 2^-1 * sum_sq (wresid theta q)
      & forall theta,
          grad_funct c theta
          = if data is [::] then Raise IndexError
            else Ok (\sum_(q <- zip Ls data) gpart theta q)].
Proof.
rewrite /_construct_f.
case E: (mapM _ _) => [Ls|e] //=.
have [sz un] := factors_unit E.
rewrite size_map in sz.
rewrite (@mapM_map _ _ _ (fun l => invmx l *m G)) /=; first by move=> l /un ul; rewrite /linalg_solve ul.
rewrite (@mapM_map _ _ _ (fun p => invmx p.1 *m p.2.1.2)) /=; first by case=> l st /mem_zipl /un ul; rewrite /linalg_solve ul.
rewrite (@mapM_map _ _ _
           (fun p => \tr (invmx p.1 *m (invmx p.1 *m p.2.1.1)^T))) /=; first by case=> l st /mem_zipl /un ul; rewrite /linalg_solve /= ul.
rewrite /_precompute parts_nf //.
case=> <-; exists Ls; split=> //= theta.
  by rewrite foldl_sum add0r funct_nf.
case: Ls data sz {E un} => [|l Ls] [|tr data] //= _.
by rewrite foldl_sum big_cons big_map.
Qed.

(** The change of the whitened residual of a trial along a direction. *)
Definition dres (H : 'M[R]_(N * dc, P)) (q : 'M[R]_K * strial) :
    'M[R]_(K, n_times q.2) :=
  invmx q.1 *m (G *m H *m (covariates q.2)^T).

Lemma wresid_line theta H (t : R) q :
  wresid (theta + t *: H) q = wresid theta q - t *: dres H q.
Proof.
rewrite /wresid /dres.
have -> : G *m (theta + t *: H) *m (covariates q.2)^T
          = G *m theta *m (covariates q.2)^T
            + t *: (G *m H *m (covariates q.2)^T).
  by rewrite mulmxDr mulmxDl -scalemxAr -scalemxAl.
by rewrite opprD addrA mulmxDr mulmxN -scalemxAr.
Qed.

Lemma sum_sq_line m n (r d : 'M[R]_(m, n)) (t : R) :
  sum_sq (r - t *: d)
  = sum_sq r - 2 * (t * \tr (r *m d^T)) + t ^+ 2 * sum_sq d.
Proof.
rewrite sum_sq_sub linearZ /= -scalemxAr linearZ /=; congr (_ + _).
rewrite /sum_sq mulr_sumr; apply: eq_bigr => i _.
by rewrite mulr_sumr; apply: eq_bigr => j _; rewrite mxE exprMn.
Qed.

Lemma gpart_tr theta H q :
  \tr ((gpart theta q)^T *m H) = - \tr (wresid theta q *m (dres H q)^T).
Proof.
rewrite /gpart /gradf /part_of /stats_of /wresid /dres /=.
set W := invmx q.1; set b := meg q.2; set E := covariates q.2.
rewrite linearN /= mulNmx linearN /=; congr (- _).
have -> : W *m (b *m E) - W *m G *m theta *m (E^T *m E)
          = W *m (b - G *m theta *m E^T) *m E.
  by rewrite mulmxBr mulmxBl !mulmxA.
rewrite -[RHS]mxtrace_tr !trmx_mul !trmxK !mulmxA.
rewrite -!mulmxA mxtrace_mulC !mulmxA.
by rewrite [RHS]mxtrace_mulC -!mulmxA mxtrace_mulC !mulmxA.
Qed.

Lemma funct_line (self : sstate) (data : seq strial) c theta g H :
  _construct_f G self data = Ok c -> grad_funct c theta = Ok g ->
  exists Q : R,
    0 <= Q /\
    forall t : R,
      funct c (theta + t *: H)
      = funct c theta + t * \tr (g^T *m H) + t ^+ 2 * Q.
Proof.
move=> /construct_f_nf [Ls [_ hf hg]]; rewrite hg.
case: data hf {hg} => [|tr data] // hf [<-].
set s := zip Ls _ in hf *.
exists (\sum_(q <- s) 2^-1 * sum_sq (dres H q)); split.
  by apply: sumr_ge0 => q _; rewrite mulr_ge0 ?invr_ge0 ?ler0n ?sum_sq_ge0.
move=> t; rewrite !hf.
have -> : \tr ((\sum_(q <- s) gpart theta q)^T *m H)
          = \sum_(q <- s) - \tr (wresid theta q *m (dres H q)^T).
  rewrite raddf_sum /= mulmx_suml raddf_sum /=.
  by apply: eq_bigr => q _; rewrite gpart_tr.
rewrite !mulr_sumr -!big_split /=; apply: eq_bigr => q _.
rewrite wresid_line sum_sq_line.
by field.
Qed.

Lemma eval_loop (self : sstate) theta (data : seq strial) Ls v0 :
  mapM (factor self) [seq trial_key tr | tr <- data] = Ok Ls ->
  for_loop (fun v tr =>
      let y := meg tr - G *m theta *m (covariates tr)^T in
      sigma_b <- of_option KeyError (Sigma_b self (trial_key tr)) ;;
      L <- cholesky sigma_b ;;
      y <- linalg_solve L y ;;
      Ok (v + 2^-1 * sum_sq y)) data v0
  = Ok (v0 + \sum_(q <- zip Ls data) 2^-1 * sum_sq (wresid theta q)).
Proof.
elim: data Ls v0 => [|tr data IH] Ls v0 /=.
  by case=> <-; rewrite big_nil addr0.
case E: (factor self _) => [l|e] //=.
case E': (mapM _ _) => [Ls'|e] //= [<-].
rewrite for_loop_cons; move: E; rewrite /factor.
case: (Sigma_b self _) => [sigma|] //= chol; rewrite chol /=.
rewrite /linalg_solve (cholesky_unit chol) /= (IH _ _ E') /=.
by rewrite big_cons addrA.
Qed.

Lemma factors_ok (self : sstate) (data : seq strial) :
  all_trials (fun tr => good (fun _ => True) self (trial_key tr)) data ->
  exists Ls, mapM (factor self) [seq trial_key tr | tr <- data] = Ok Ls.
Proof.
elim: data => [|tr data IH] /=; first by exists [::].
case=> [[gamma [sigma [_ hs pds _]]] /IH [Ls ->]].
rewrite /factor hs /=.
by have [l ->] := posdef_cholesky pds; exists (l :: Ls).
Qed.

Lemma construct_f_ok (self : sstate) (data : seq strial) :
  all_trials (fun tr => good (fun _ => True) self (trial_key tr)) data ->
  exists c, _construct_f G self data = Ok c.
Proof.
move=> /factors_ok [Ls E]; rewrite /_construct_f.
rewrite -/(factor self) in E *.
have [sz un] := factors_unit E.
rewrite E /=.
rewrite (@mapM_map _ _ _ (fun l => invmx l *m G)) /=; first by move=> l /un ul; rewrite /linalg_solve ul.
rewrite (@mapM_map _ _ _ (fun p => invmx p.1 *m p.2.1.2)) /=; first by case=> l st /mem_zipl /un ul; rewrite /linalg_solve ul.
rewrite (@mapM_map _ _ _
           (fun p => \tr (invmx p.1 *m (invmx p.1 *m p.2.1.1)^T))) /=; first by case=> l st /mem_zipl /un ul; rewrite /linalg_solve /= ul.
by eexists.
Qed.

End ObjectiveFacts.

(** X11. The objective closure of [_construct_f], computed from the cached
    statistics [bbt], [bE], [EtE], is the explicit one: with [Ls] the
    Cholesky factors of the [Sigma_b[key]], [funct(theta)] is the sum over
    the trials of half the sum of the squared entries of the whitened
    residual [solve(L, meg - lead_field . theta . covariatesT)]. *)
Theorem construct_f_objective (R : rcfType) (key : eqType) K N dc P
    (G : 'M[R]_(K, N * dc)) (self : solve_state R key K N dc)
    (data : seq (trial R key K P)) (c : closures R N dc P) :
  _construct_f G self data = Ok c ->
  exists Ls,
    mapM (factor self) [seq trial_key tr | tr <- data] = Ok Ls /\
    forall theta,
      funct c theta
      = \sum_(q <- zip Ls data)
          2^-1 * sum_sq (invmx q.1 *m
                           (meg q.2 - G *m theta *m (covariates q.2)^T)).
Proof.
by move=> /construct_f_nf [Ls [E hf _]]; exists Ls.
Qed.

(** On the one-trial example. *)
Lemma construct_f_objective_witness :
  exists c Ls,
    [/\ _construct_f (const_mx 1 : 'M_(1, 1 * 1)) (ex_self 1) [:: ex_trial] = Ok c,
        mapM (factor (ex_self 1)) [:: tt] = Ok Ls
      & forall theta,
          funct c theta
          = \sum_(q <- zip Ls [:: ex_trial])
              2^-1 * sum_sq (invmx q.1 *m
                 (meg q.2 - (const_mx 1 : 'M_(1, 1 * 1)) *m theta
                              *m (covariates q.2)^T))].
Proof.
have [c run] := @construct_f_ok _ _ _ _ _ _ (const_mx 1 : 'M_(1, 1 * 1))
                  (ex_self 1) [:: ex_trial] (conj (ex_good (Pg := fun _ => True) I) I).
have [Ls [E hf]] := construct_f_objective run.
by exists c, Ls.
Defined.

(** X12. The gradient closure of [_construct_f] is the gradient of the
    objective closure, sign included: if [grad_funct(theta)] returns [g],
    then along every direction [H] the objective is the quadratic
    [funct(theta + t H) = funct(theta) + t <g, H> + t^2 Q] with
    [<g, H> = trace(gT H)] and [Q = funct(theta + H) - funct(theta) - <g, H>],
    a non-negative number. *)
Theorem grad_funct_is_gradient (R : rcfType) (key : eqType) K N dc P
    (G : 'M[R]_(K, N * dc)) (self : solve_state R key K N dc)
    (data : seq (trial R key K P)) (c : closures R N dc P)
    (theta g H : 'M[R]_(N * dc, P)) :
  _construct_f G self data = Ok c -> grad_funct c theta = Ok g ->
  0 <= funct c (theta + H) - funct c theta - \tr (g^T *m H) /\
  forall t : R,
    funct c (theta + t *: H)
    = funct c theta + t * \tr (g^T *m H)
      + t ^+ 2 * (funct c (theta + H) - funct c theta - \tr (g^T *m H)).
Proof.
move=> run hg; have [Q [Q0 hl]] := funct_line H run hg.
have QE : funct c (theta + H) - funct c theta - \tr (g^T *m H) = Q.
  by have := hl 1; rewrite scale1r mul1r expr1n mul1r => ->; ring.
by rewrite QE.
Qed.

(** On the one-trial example. *)
Lemma grad_funct_is_gradient_witness :
  exists c g,
    [/\ _construct_f (const_mx 1 : 'M_(1, 1 * 1)) (ex_self 1) [:: ex_trial] = Ok c,
        grad_funct c 0 = Ok g
      & forall t : Rdefinitions.R,
          funct c (0 + t *: 1%:M)
          = funct c 0 + t * \tr (g^T *m 1%:M)
            + t ^+ 2 * (funct c (0 + 1%:M) - funct c 0 - \tr (g^T *m 1%:M))].
Proof.
have [c run] := @construct_f_ok _ _ _ _ _ _ (const_mx 1 : 'M_(1, 1 * 1))
                  (ex_self 1) [:: ex_trial] (conj (ex_good (Pg := fun _ => True) I) I).
have [Ls [_ _ hg]] := construct_f_nf run.
have [_ hl] := grad_funct_is_gradient 1%:M run (hg 0).
by eexists c, _; split; [exact: run | exact: hg | exact: hl].
Defined.

(** X13. On a container with at least one trial, [eval_cv] (with
    [self.theta = theta]) is the objective closure of [_construct_f] at
    [theta] divided by the number of trials. *)
Theorem eval_cv_is_funct (R : rcfType) (key : eqType) K N dc P
    (G : 'M[R]_(K, N * dc)) (self : solve_state R key K N dc)
    (data : seq (trial R key K P)) (c : closures R N dc P)
    (theta : 'M[R]_(N * dc, P)) :
  _construct_f G self data = Ok c -> (0 < size data)%N ->
  eval_cv G self theta data = Ok (funct c theta / (size data)%:R).
Proof.
move=> /construct_f_nf [Ls [E hf _]] sz.
by rewrite /eval_cv (eval_loop G theta 0 E) /= add0r /py_truediv pnatr_eq0 (gtn_eqF sz) hf.
Qed.

(** On the one-trial example. *)
Lemma eval_cv_is_funct_witness :
  exists c,
    _construct_f (const_mx 1 : 'M_(1, 1 * 1)) (ex_self 1) [:: ex_trial] = Ok c /\
    eval_cv (const_mx 1 : 'M_(1, 1 * 1)) (ex_self 1) 0 [:: ex_trial]
    = Ok (funct c 0 / 1%:R).
Proof.
have [c run] := @construct_f_ok _ _ _ _ _ _ (const_mx 1 : 'M_(1, 1 * 1))
                  (ex_self 1) [:: ex_trial] (conj (ex_good (Pg := fun _ => True) I) I).
by exists c; split=> //; apply: (eval_cv_is_funct 0 run isT).
Defined.

(** X14. On a container without trial [_construct_f] succeeds; the objective
    closure returns 0, the gradient closure raises [IndexError] (it reads
    [leadfields[0]]), and [eval_cv] raises [ZeroDivisionError]. *)
Theorem construct_f_no_trial (R : rcfType) (key : eqType) K N dc P
    (G : 'M[R]_(K, N * dc)) (self : solve_state R key K N dc)
    (theta : 'M[R]_(N * dc, P)) :
  exists c : closures R N dc P,
    [/\ _construct_f G self [::] = Ok c,
        funct c theta = 0,
        grad_funct c theta = Raise IndexError
      & eval_cv G self theta [::] = Raise ZeroDivisionError].
Proof.
eexists; split; first by rewrite /_construct_f /=.
- by [].
- by [].
- by rewrite /eval_cv /for_loop /= /py_truediv eqxx.
Qed.

(** X15. [_construct_f] succeeds whenever [Gamma] and [Sigma_b] hold an
    entry for the key of every trial, with [Sigma_b[key]] positive
    definite, which is what a successful [_solve] leaves behind. *)
Theorem construct_f_succeeds (R : rcfType) (key : eqType) K N dc P
    (G : 'M[R]_(K, N * dc)) (self : solve_state R key K N dc)
    (data : seq (trial R key K P)) :
  all_trials (fun tr => good (fun _ => True) self (trial_key tr)) data ->
  exists c, _construct_f G self data = Ok c.
Proof. exact: construct_f_ok. Qed.

(** On the one-trial example. *)
Lemma construct_f_succeeds_witness :
  exists c,
    _construct_f (const_mx 1 : 'M_(1, 1 * 1)) (ex_self 1) [:: ex_trial] = Ok c.
Proof.
exact: (@construct_f_succeeds _ _ _ _ _ _ (const_mx 1 : 'M_(1, 1 * 1))
          (ex_self 1) [:: ex_trial] (conj (ex_good (Pg := fun _ => True) I) I)).
Defined.

(** *** The estimation stability metric *)

Section StabilityFacts.

Variable R : rcfType.
Variable key : Type.
Variables (K n P : nat).

Implicit Types (data : seq (trial R key K P))
               (models : seq ('M[R]_(K, n) * 'M[R]_(n, P))).

(** A classified value that is not a negative number or minus infinity. *)
Definition np_not_negative (r : npfloat R) : bool :=
  match r with
  | Finite v => 0 <= v
  | PosInf | NaN => true
  | NegInf => false
  end.

Lemma np_true_divide_ge0 (x y : R) :
  0 <= x -> 0 <= y ->
  np_not_negative (np_true_divide x y).
Proof.
move=> x0 y0; rewrite /np_true_divide.
case: (eqVneq y 0) => [_|yn] /=; last by rewrite divr_ge0.
by case: (eqVneq x 0) => [//|xn]; rewrite lt_neqAle eq_sym xn x0.
Qed.

Lemma ES_ge0 models data r :
  compute_ES_metric models data = Ok r ->
  np_not_negative r.
Proof.
rewrite /compute_ES_metric; case: models => [|m models] //= [<-].
apply: np_true_divide_ge0.
  apply: divr_ge0; last by rewrite ler0n.
  by apply: sumr_ge0 => y _; apply: sumr_ge0 => t _; rewrite sqr_ge0.
by apply: sumr_ge0 => v _; rewrite sqr_ge0.
Qed.

Lemma prediction_row_zero data (G : 'M[R]_(K, n)) :
  all (fun v => v == 0) (prediction_row data (G, 0)).
Proof.
rewrite /prediction_row /=.
have : all (fun v : R => v == 0) [::] by [].
elim: data [::] => [|tr data IH] y0 //= ally0; apply: IH.
rewrite all_cat ally0 /=; apply/allP => v /allpairsP [[i j] /= [_ _ ->]].
by rewrite mulmx0 mul0mx mxE.
Qed.

Lemma nth_zero (s : seq R) t : all (fun v => v == 0) s -> nth 0 s t = 0.
Proof.
move=> /all_nthP h; case: (ltnP t (size s)) => [lt|ge]; last exact: nth_default.
exact/eqP/h.
Qed.

Lemma ES_zero_theta models data :
  models != [::] -> all (fun model => model.2 == 0) models ->
  compute_ES_metric models data = Ok NaN.
Proof.
case: models => [|[G th] models] //= _ /andP [/eqP /= -> th0].
rewrite /compute_ES_metric /=.
set Y := _ :: _.
have Y0 y : y \in Y -> all (fun v => v == 0) y.
  rewrite inE => /orP [/eqP ->|/mapP [[G' th'] hin ->]].
    exact: prediction_row_zero.
  by move/allP: th0 => /(_ _ hin) /= /eqP ->; apply: prediction_row_zero.
have S0 t : \sum_(y <- Y) nth 0 y t = 0.
  by rewrite big_seq big1 // => y /Y0 /nth_zero.
set Ybar := map _ _.
have Ybar0 : all (fun v => v == 0) Ybar.
  by apply/allP => v /mapP [t _ ->]; rewrite S0 mul0r.
have -> : \sum_(v <- Ybar) v ^+ 2 = 0.
  by rewrite big_seq big1 // => v /(allP Ybar0) /eqP ->; rewrite expr0n.
have -> : \sum_(y <- Y) \sum_(t <- iota 0 (size (prediction_row data (G, 0))))
             (nth 0 y t - nth 0 Ybar t) ^+ 2 = 0.
  rewrite big_seq big1 // => y /Y0 y0; rewrite big1 // => t _.
  by rewrite !nth_zero // subr0 expr0n.
by rewrite mul0r /np_true_divide eqxx.
Qed.

Lemma ES_identical (m : 'M[R]_(K, n) * 'M[R]_(n, P)) models data :
  all (fun m' => prediction_row data m' == prediction_row data m) models ->
  compute_ES_metric (m :: models) data
  = Ok (np_true_divide 0 (\sum_(v <- prediction_row data m) v ^+ 2)).
Proof.
move=> same; rewrite /compute_ES_metric /=.
set y0 := prediction_row data m; set Y := _ :: _.
have YE y : y \in Y -> y = y0.
  rewrite inE => /orP [/eqP //|/mapP [m' hin ->]].
  by move/allP: same => /(_ _ hin) /eqP.
have M0 : (size Y)%:R != 0 :> R by rewrite pnatr_eq0.
have SE t : (\sum_(y <- Y) nth 0 y t) / (size Y)%:R = nth 0 y0 t.
  rewrite big_seq (eq_bigr (fun=> nth 0 y0 t)); first by move=> y /YE ->.
  by rewrite -big_seq big_const_seq count_predT iter_addr_0 -mulr_natr mulfK.
set Ybar := map _ _.
have YbarE : Ybar = y0.
  rewrite /Ybar (eq_map SE) map_nth_iota0 // take_size.
  by [].
rewrite YbarE; congr (Ok (np_true_divide _ _)).
rewrite big_seq big1 ?mul0r // => y /YE ->.
by rewrite big1 // => t _; rewrite subrr expr0n.
Qed.

End StabilityFacts.

(** X16. [compute_ES_metric] raises when [models] is empty; with at least
    one model it returns, and what it returns is never a negative number
    nor minus infinity: a non-negative number, plus infinity or NaN. *)
Theorem ES_metric_range (R : rcfType) (key : Type) K n P
    (data : seq (trial R key K P)) :
  compute_ES_metric ([::] : seq ('M[R]_(K, n) * 'M[R]_(n, P))) data
  = Raise ValueError /\
  forall (m : 'M[R]_(K, n) * 'M[R]_(n, P)) models,
    exists r, compute_ES_metric (m :: models) data = Ok r /\ np_not_negative r.
Proof.
split=> // m models.
have [r E] : exists r, compute_ES_metric (m :: models) data = Ok r.
  by rewrite /compute_ES_metric /=; eexists.
by exists r; split=> //; apply: ES_ge0 E.
Qed.

(** X17. When every model has zero coefficients, the metric of a non-empty
    list of models is NaN (0 / 0), whatever the data. *)
Theorem ES_metric_zero_theta (R : rcfType) (key : Type) K n P
    (models : seq ('M[R]_(K, n) * 'M[R]_(n, P))) (data : seq (trial R key K P)) :
  models != [::] -> all (fun model => model.2 == 0) models ->
  compute_ES_metric models data = Ok NaN.
Proof. exact: ES_zero_theta. Qed.

(** One model with zero coefficients on the one-trial example. *)
Lemma ES_metric_zero_theta_witness :
  compute_ES_metric [:: (1%:M : 'M[Rdefinitions.R]_1, 0 : 'M[Rdefinitions.R]_1)]
    [:: ex_trial] = Ok NaN.
Proof.
apply: ES_metric_zero_theta => //=.
by rewrite eqxx.
Defined.

(** X18. Copies of one model are perfectly stable: the metric is 0, unless
    the common prediction is zero, in which case it is NaN. *)
Theorem ES_metric_identical_models (R : rcfType) (key : Type) K n P
    (m : 'M[R]_(K, n) * 'M[R]_(n, P)) models (data : seq (trial R key K P)) :
  all (fun m' => m' == m) models ->
  compute_ES_metric (m :: models) data
  = Ok (if \sum_(v <- prediction_row data m) v ^+ 2 == 0 then NaN
        else Finite 0).
Proof.
move=> same; rewrite ES_identical.
  by apply/allP => m' /(allP same) /eqP ->.
by rewrite /np_true_divide eqxx; case: eqP => //= _; rewrite mul0r.
Qed.

(** Two copies of a model on the one-trial example. *)
Lemma ES_metric_identical_models_witness :
  let m := (1%:M : 'M[Rdefinitions.R]_1, 1%:M : 'M[Rdefinitions.R]_1) in
  compute_ES_metric [:: m; m] [:: ex_trial]
  = Ok (if \sum_(v <- prediction_row [:: ex_trial] m) v ^+ 2 == 0 then NaN
        else Finite 0).
Proof.
move=> m; apply: ES_metric_identical_models.
by rewrite /= eqxx.
Defined.

(** *** The outer iterations *)

Section ResidualFacts.

Variable R : rcfType.

Lemma sum_sq_eq0 m n (A : 'M[R]_(m, n)) : (sum_sq A == 0) = (A == 0).
Proof.
rewrite -(frobenius_eq0 A) /frobenius sqrtr_eq0 -/(sum_sq A).
by rewrite [RHS]le_eqVlt ltNge sum_sq_ge0 orbF.
Qed.

Lemma residual_cases m n (theta0 theta1 : 'M[R]_(m, n)) :
  _residual theta0 theta1
  = Ok (if theta0 == 0 then (if theta1 == 0 then NaN else PosInf)
        else Finite (Num.sqrt (sum_sq (theta1 - theta0) / sum_sq theta0))).
Proof.
rewrite /_residual /np_true_divide sum_sq_eq0.
case: (eqVneq theta0 0) => [->|t0] /=.
  rewrite subr0 sum_sq_eq0; case: (eqVneq theta1 0) => [//|t1] /=.
  by rewrite lt_neqAle eq_sym sum_sq_eq0 t1 sum_sq_ge0.
by rewrite ltNge divr_ge0 ?sum_sq_ge0.
Qed.

Lemma residual_zero_not_lt m n (theta1 : 'M[R]_(m, n)) tol :
  exists e, _residual 0 theta1 = Ok e /\ np_lt e tol = false.
Proof.
rewrite residual_cases eqxx.
by case: eqP => _; eexists; split.
Qed.

End ResidualFacts.

(** X19. [_residual] never raises.  When [theta0] is zero it returns NaN if
    [theta1] is zero too and plus infinity otherwise; when [theta0] is not
    zero it returns the finite number
    [sqrt(sum((theta1 - theta0)^2) / sum(theta0^2))]. *)
Theorem residual_never_raises (R : rcfType) m n (theta0 theta1 : 'M[R]_(m, n)) :
  _residual theta0 theta1
  = Ok (if theta0 == 0 then (if theta1 == 0 then NaN else PosInf)
        else Finite (Num.sqrt (sum_sq (theta1 - theta0) / sum_sq theta0))).
Proof. exact: residual_cases. Qed.

Section FitFacts.

Variable R : rcfType.
Variable eig : forall n, 'M[R]_n -> 'rV[R]_n * 'M[R]_n.
Variable compute_gamma_c : 'M[R]_3 -> 'M[R]_3 -> 'M[R]_3 -> result 'M[R]_3.
Variable key : eqType.
Variables (K N P : nat).
Variable o : orientation_t.
Variable cproxg_group : 'M[R]_(N * 3, P) -> R -> result 'M[R]_(N * 3, P).
Variable fasta_learn :
  ('M[R]_(N * orientation o, P) -> R) ->
  ('M[R]_(N * orientation o, P) -> result R) ->
  ('M[R]_(N * orientation o, P) -> result 'M[R]_(N * orientation o, P)) ->
  ('M[R]_(N * orientation o, P) -> R -> result 'M[R]_(N * orientation o, P)) ->
  nat -> 'M[R]_(N * orientation o, P) ->
  result ('M[R]_(N * orientation o, P) * 'M[R]_(N * orientation o, P)).
Variable G : 'M[R]_(K, N * orientation o).
Variable noise : 'M[R]_K.
Variables (n_iterc n_iterf : nat).
Variable data : seq (trial R key K P).
Variables (mu tol : R).

Local Notation loop :=
  (fun n => fit_loop eig compute_gamma_c cproxg_group fasta_learn G noise
              n_iterc n_iterf n data mu tol).

Lemma fit_loop_first n err self st' :
  (forall f g gr px m theta theta' c,
     fasta_learn f g gr px m theta = Ok (theta', c) -> theta' = theta) ->
  loop n.+1 (0, err, self) = Ok st' ->
  exists c coefs_ e self1,
    [/\ _construct_f G self data = Ok c,
        fasta_learn (funct c) (g_funct mu) (grad_funct c)
          (prox_g cproxg_group mu) n_iterf 0 = Ok (0, coefs_),
        _residual 0 coefs_ = Ok e /\ np_lt e tol = false,
        _solve eig compute_gamma_c G noise true n_iterc data coefs_ self
        = Ok self1
      & loop n (coefs_, rcons err e, self1) = Ok st'].
Proof.
move=> pure /=.
case Ec: (_construct_f _ _ _) => [c|x] //=.
case Ef: (fasta_learn _ _ _ _ _ _) => [[theta' coefs_]|x] //=.
have th0 := pure _ _ _ _ _ _ _ _ Ef; rewrite th0 in Ef *.
have [e [Er lt]] := residual_zero_not_lt coefs_ tol.
rewrite Er /= lt.
case Es: (_solve _ _ _ _ _ _ _ _ _) => [self1|x] //= run.
by exists c, coefs_, e, self1.
Qed.

Lemma fit_loop_err n st st' :
  loop n st = Ok st' ->
  exists es,
    [/\ st'.1.2 = st.1.2 ++ es, (size es <= n)%N,
        all (fun e => ~~ np_lt e tol) (take (size es).-1 es)
      & (size es < n)%N -> np_lt (last NaN es) tol /\ (0 < size es)%N].
Proof.
elim: n st => [|n IH] [[theta err] self] /=.
  by case=> <-; exists [::]; rewrite /= cats0.
case: (_construct_f _ _ _) => [c|x] //=.
case: (fasta_learn _ _ _ _ _ _) => [[theta' coefs_]|x] //=.
case: (_residual _ _) => [e|x] //=.
case lt: (np_lt e tol).
  by case=> <- /=; exists [:: e]; rewrite cats1 /=; split.
case: (_solve _ _ _ _ _ _ _ _ _) => [self1|x] //= /IH [es [/= -> sz al la]].
exists (e :: es); rewrite -cats1 -catA /=; split=> //.
  case: es sz al la => [|e' es] //= _ ->.
  by rewrite lt.
rewrite ltnS => /la [].
by case: es {sz al la}.
Qed.

End FitFacts.

(** X20. Provided FASTA does not write into the array [theta] it is handed,
    the first outer iteration of [fit] never stops on the tolerance:
    [theta] starts at zero, so the first entry of [err] is NaN or plus
    infinity, the test [err[-1] < tol] is false whatever [tol], and a [fit]
    that returns with [n_iter >= 1] has run [_solve] on the coefficients of
    the first FASTA call before going on with the remaining iterations. *)
Theorem fit_first_iteration (R : rcfType)
    (eig : forall n, 'M[R]_n -> 'rV[R]_n * 'M[R]_n)
    (compute_gamma_c : 'M[R]_3 -> 'M[R]_3 -> 'M[R]_3 -> result 'M[R]_3)
    (key : eqType) K N P (o : orientation_t)
    (cproxg_group : 'M[R]_(N * 3, P) -> R -> result 'M[R]_(N * 3, P))
    (fasta_learn :
       ('M[R]_(N * orientation o, P) -> R) ->
       ('M[R]_(N * orientation o, P) -> result R) ->
       ('M[R]_(N * orientation o, P) -> result 'M[R]_(N * orientation o, P)) ->
       ('M[R]_(N * orientation o, P) -> R ->
        result 'M[R]_(N * orientation o, P)) ->
       nat -> 'M[R]_(N * orientation o, P) ->
       result ('M[R]_(N * orientation o, P) * 'M[R]_(N * orientation o, P)))
    (G : 'M[R]_(K, N * orientation o)) (noise : 'M[R]_K) (eta : R)
    (init_sigma_b : 'M[R]_K) (n_iter n_iterc n_iterf : nat)
    (data : seq (trial R key K P)) (mu tol : R)
    (st' : fit_state R key K N P o) :
  (forall f g gr px m theta theta' c,
     fasta_learn f g gr px m theta = Ok (theta', c) -> theta' = theta) ->
  (0 < n_iter)%N ->
  fit eig compute_gamma_c cproxg_group fasta_learn G noise eta init_sigma_b
    n_iter n_iterc n_iterf data mu tol = Ok st' ->
  let self := (__init__iter N o eta init_sigma_b data).1 in
  exists c coefs_ e self1,
    [/\ _construct_f G self data = Ok c,
        fasta_learn (funct c) (g_funct mu) (grad_funct c)
          (prox_g cproxg_group mu) n_iterf 0 = Ok (0, coefs_),
        _residual 0 coefs_ = Ok e /\ np_lt e tol = false,
        _solve eig compute_gamma_c G noise true n_iterc data coefs_ self
        = Ok self1
      & fit_loop eig compute_gamma_c cproxg_group fasta_learn G noise
          n_iterc n_iterf n_iter.-1 data mu tol (coefs_, [:: e], self1)
        = Ok st'].
Proof.
move=> pure; case: n_iter => // n _; rewrite /fit /__init__iter => run /=.
exact: fit_loop_first pure run.
Qed.

(** X21. When [fit] returns, [err] has at most [n_iter] entries, none of
    them but the last is below [tol], and if it has fewer than [n_iter]
    entries the last one is below [tol]: the loop stops at the first
    iteration whose relative change is below the tolerance. *)
Theorem fit_err_history (R : rcfType)
    (eig : forall n, 'M[R]_n -> 'rV[R]_n * 'M[R]_n)
    (compute_gamma_c : 'M[R]_3 -> 'M[R]_3 -> 'M[R]_3 -> result 'M[R]_3)
    (key : eqType) K N P (o : orientation_t)
    (cproxg_group : 'M[R]_(N * 3, P) -> R -> result 'M[R]_(N * 3, P))
    (fasta_learn :
       ('M[R]_(N * orientation o, P) -> R) ->
       ('M[R]_(N * orientation o, P) -> result R) ->
       ('M[R]_(N * orientation o, P) -> result 'M[R]_(N * orientation o, P)) ->
       ('M[R]_(N * orientation o, P) -> R ->
        result 'M[R]_(N * orientation o, P)) ->
       nat -> 'M[R]_(N * orientation o, P) ->
       result ('M[R]_(N * orientation o, P) * 'M[R]_(N * orientation o, P)))
    (G : 'M[R]_(K, N * orientation o)) (noise : 'M[R]_K) (eta : R)
    (init_sigma_b : 'M[R]_K) (n_iter n_iterc n_iterf : nat)
    (data : seq (trial R key K P)) (mu tol : R)
    (st' : fit_state R key K N P o) :
  fit eig compute_gamma_c cproxg_group fasta_learn G noise eta init_sigma_b
    n_iter n_iterc n_iterf data mu tol = Ok st' ->
  let err := st'.1.2 in
  [/\ (size err <= n_iter)%N,
      all (fun e => ~~ np_lt e tol) (take (size err).-1 err)
    & (size err < n_iter)%N -> np_lt (last NaN err) tol].
Proof.
rewrite /fit /__init__iter => /fit_loop_err [es [/= -> sz al la]].
by split=> // /la [].
Qed.

(** FASTA and the group proximal routine for the example: both return
    their argument and leave it as it is. *)
Definition ex_fasta_learn :
    ('M[Rdefinitions.R]_(1 * orientation fixed, 1) -> Rdefinitions.R) ->
    ('M[Rdefinitions.R]_(1 * orientation fixed, 1) -> result Rdefinitions.R) ->
    ('M[Rdefinitions.R]_(1 * orientation fixed, 1) ->
     result 'M[Rdefinitions.R]_(1 * orientation fixed, 1)) ->
    ('M[Rdefinitions.R]_(1 * orientation fixed, 1) -> Rdefinitions.R ->
     result 'M[Rdefinitions.R]_(1 * orientation fixed, 1)) ->
    nat -> 'M[Rdefinitions.R]_(1 * orientation fixed, 1) ->
    result ('M[Rdefinitions.R]_(1 * orientation fixed, 1) *
            'M[Rdefinitions.R]_(1 * orientation fixed, 1)) :=
  fun _ _ _ _ _ theta => Ok (theta, theta).

Lemma ex_fasta_pure f g gr px m theta theta' c :
  ex_fasta_learn f g gr px m theta = Ok (theta', c) -> theta' = theta.
Proof. by case=> <-. Qed.

Definition ex_cproxg_group (z : 'M[Rdefinitions.R]_(1 * 3, 1))
    (mu : Rdefinitions.R) : result 'M[Rdefinitions.R]_(1 * 3, 1) := Ok z.

Definition ex_fit (n_iter : nat) :
    result (fit_state Rdefinitions.R unit 1 1 1 fixed) :=
  fit (@eig_diag _) ex_compute_gamma_c ex_cproxg_group ex_fasta_learn
    (const_mx 1 : 'M_(1, 1 * orientation fixed)) 1%:M 1 1%:M n_iter 1 1
    [:: ex_trial] 1 1.

Lemma ex_fit_ok : exists st', ex_fit 1 = Ok st'.
Proof.
rewrite /ex_fit /fit /__init__iter /=.
set self := {| Gamma := _ |}.
have gd : good (fun _ => True) self tt.
  exists [ffun _ => 1 *: 1%:M], 1%:M; split=> //; exact: posdef1.
have [c ->] := @construct_f_ok _ _ _ _ _ _ (const_mx 1 : 'M_(1, 1 * 1))
                 self [:: ex_trial] (conj gd I).
rewrite /= /ex_fasta_learn /=.
have [e [Er lt]] := residual_zero_not_lt (0 : 'M[Rdefinitions.R]_(1 * 1, 1)) 1.
rewrite Er /= lt /=.
have [self1 [-> _]] :=
  solve_ok (update_ok_fixed (@eig_diag _) ex_compute_gamma_c true ex_col_neq0)
    1 (posdef1 _ _)
    (conj (conj (eq_ind_r (@posdef _ _) (posdef1 _ _)
                   (ex_resid_cov (const_mx 1 : 'M_(1, 1 * 1)))) gd) I
     : all_trials (fun tr => posdef (resid_cov _ 0 tr) /\
                             good (fun _ => True) self (trial_key tr))
         [:: ex_trial]).
by eexists.
Qed.

(** One outer iteration on the one-trial example. *)
Lemma fit_first_iteration_witness :
  exists st' self1 (e : npfloat Rdefinitions.R),
    [/\ ex_fit 1 = Ok st', np_lt e 1 = false
      & _solve (@eig_diag _) ex_compute_gamma_c
          (const_mx 1 : 'M_(1, 1 * orientation fixed)) 1%:M true 1
          [:: ex_trial] 0
          (__init__iter 1 fixed 1 1%:M [:: ex_trial]).1 = Ok self1].
Proof.
have [st' run] := ex_fit_ok.
have [c [coefs_ [e [self1 [_ hf [_ lt] hs _]]]]] :=
  @fit_first_iteration Rdefinitions.R (@eig_diag _) ex_compute_gamma_c
    unit 1 1 1 fixed ex_cproxg_group ex_fasta_learn
    (const_mx 1) 1%:M 1 1%:M 1 1 1 [:: ex_trial] 1 1 st' ex_fasta_pure isT run.
exists st', self1, e; split; [exact: run | exact: lt |].
by case: hf hs => <-.
Defined.

(** One outer iteration on the one-trial example. *)
Lemma fit_err_history_witness :
  exists st',
    [/\ ex_fit 1 = Ok st', (size st'.1.2 <= 1)%N
      & all (fun e => ~~ np_lt e 1) (take (size st'.1.2).-1 st'.1.2)].
Proof.
have [st' run] := ex_fit_ok.
have [sz al _] := fit_err_history run.
exists st'; split; [exact: run | exact: sz | exact: al].
Defined.

(** *** The Gabor basis *)

Section BasisFacts.

Variable R : rcfType.
Variable exp : R -> R.

Lemma np_max_ge (a : seq R) m v : np_max a = Ok m -> v \in a -> v <= m.
Proof.
case: a => [|a0 a] //= [<-]; rewrite inE.
elim: a => [|a1 a IH] /=; first by rewrite orbF => /eqP ->.
rewrite inE le_max orbCA => /orP [/eqP -> |h]; first by rewrite lexx.
by rewrite IH ?orbT.
Qed.

Lemma np_max_in (a : seq R) m : np_max a = Ok m -> m \in a.
Proof.
case: a => [|a0 a] //= [<-].
elim: a => [|a1 a IH] /=; first by rewrite mem_head.
case: (leP a1 (foldr Num.max a0 a)) => _; last by rewrite !inE eqxx orbT.
by move: IH; rewrite !inE => /orP [->|->]; rewrite ?orbT.
Qed.

Lemma nth_mkseq_iota (X : Type) (x0 : X) (h : nat -> X) n t :
  (t < n)%N -> nth x0 [seq h i | i <- iota 0 n] t = h t.
Proof.
by move=> lt; rewrite (nth_map 0%N) ?size_iota // nth_iota.
Qed.

Lemma gaussian_basis_ok nlevel (span : seq R) :
  (1 < nlevel)%N -> (0 < size span)%N -> (forall a, 0 < exp a) ->
  exists B,
    [/\ gaussian_basis exp nlevel span = Ok B,
        ncols B = (nlevel - 1)%N /\ size (rows B) = size span,
        forall t count, (t < size span)%N -> (count < nlevel - 1)%N ->
          exists v, nth NaN (nth [::] (rows B) t) count = Finite v /\
                    0 < v <= 1
      & exists t count,
          [/\ (t < size span)%N, (count < nlevel - 1)%N
            & nth NaN (nth [::] (rows B) t) count = Finite 1]].
Proof.
move=> n1 s0 pos; rewrite /gaussian_basis.
have [xl ->] : exists xl, last_item span = Ok xl.
  by case: span s0 => [|x0 x] //= _; eexists.
rewrite /py_truediv pnatr_eq0 (gtn_eqF (ltnW n1)) /=.
set means := linspace _ _ _.
set W := map _ (iota 0 (nlevel - 1)).
pose xs := span.
have n0 : (0 < nlevel - 1)%N by rewrite subn_gt0.
have WE count t : (count < nlevel - 1)%N -> (t < size xs)%N ->
    nth 0 (nth [::] W count) t
    = exp (- (nth 0 xs t - nth 0 means count) ^+ 2 / (2 * (17%:R / 2) ^+ 2)).
  move=> lc lt; rewrite /W (nth_mkseq_iota [::]) //.
  by rewrite (nth_map 0).
have Win count t : (count < nlevel - 1)%N -> (t < size xs)%N ->
    nth 0 (nth [::] W count) t \in flatten W.
  move=> lc lt; apply/flattenP; exists (nth [::] W count).
    by apply: mem_nth; rewrite size_map size_iota.
  by apply: mem_nth; rewrite /W (nth_mkseq_iota [::]) // size_map.
have Wpos v : v \in flatten W -> 0 < v.
  move=> /flattenP [row /mapP [count _ ->] /mapP [xt _ ->]].
  exact: pos.
case Em: (np_max (flatten W)) => [wmax|e] /=; last first.
  move: Em (Win 0%N 0%N n0 s0); rewrite /np_max.
  by case: (flatten W).
have wmax0 : 0 < wmax by apply: Wpos; apply: np_max_in Em.
eexists; split; first by [].
- by rewrite /= size_map size_iota.
- move=> t count lt lc /=.
  rewrite (nth_mkseq_iota [::]) // (nth_mkseq_iota NaN) //.
  rewrite /np_true_divide gt_eqF //; eexists; split; first by [].
  apply/andP; split.
    by apply: divr_gt0 => //; apply: Wpos; apply: Win.
  rewrite ler_pdivrMr // mul1r.
  by apply: np_max_ge Em _; apply: Win.
- have /flattenP [row /(nthP [::]) [count lc <-] /(nthP 0) [t lt E]] :=
    np_max_in Em.
  move: lc; rewrite size_map size_iota => lc.
  move: lt; rewrite /W (nth_mkseq_iota [::]) // size_map => lt.
  exists t, count; split=> //=.
  rewrite (nth_mkseq_iota [::]) // (nth_mkseq_iota NaN) //.
  by rewrite /np_true_divide gt_eqF // -/W E divff // gt_eqF.
Qed.

End BasisFacts.

(** X22. [gaussian_basis] raises [IndexError] on an empty span, and on a
    non-empty span [ZeroDivisionError] for [nlevel = 0] and [ValueError]
    for [nlevel = 1] (the maximum of an array without entries). *)
Theorem gaussian_basis_errors (R : rcfType) (exp : R -> R) nlevel
    (x0 : R) (x : seq R) :
  [/\ gaussian_basis exp nlevel [::] = Raise IndexError,
      gaussian_basis exp 0 (x0 :: x) = Raise ZeroDivisionError
    & gaussian_basis exp 1 (x0 :: x) = Raise ValueError].
Proof.
split=> //; rewrite /gaussian_basis /= /py_truediv ?eqxx //.
by rewrite oner_eq0.
Qed.

(** X23. For [nlevel >= 2], a non-empty span and a positive [np.exp],
    [gaussian_basis] returns an array of shape [(len(span), nlevel - 1)]
    whose entries are all finite, in the interval (0, 1], and one of them
    is exactly 1. *)
Theorem gaussian_basis_normalised (R : rcfType) (exp : R -> R) nlevel
    (span : seq R) :
  (1 < nlevel)%N -> (0 < size span)%N -> (forall a, 0 < exp a) ->
  exists B,
    [/\ gaussian_basis exp nlevel span = Ok B,
        ncols B = (nlevel - 1)%N /\ size (rows B) = size span,
        forall t count, (t < size span)%N -> (count < nlevel - 1)%N ->
          exists v, nth NaN (nth [::] (rows B) t) count = Finite v /\
                    0 < v <= 1
      & exists t count,
          [/\ (t < size span)%N, (count < nlevel - 1)%N
            & nth NaN (nth [::] (rows B) t) count = Finite 1]].
Proof. exact: gaussian_basis_ok. Qed.

(** The basis of two atoms over a span of three points, with a constant
    positive function for [np.exp]. *)
Lemma gaussian_basis_normalised_witness :
  exists B,
    gaussian_basis (fun _ : Rdefinitions.R => 1) 3 [:: 1; 2%:R; 3%:R] = Ok B /\
    ncols B = 2.
Proof.
have [B [run [nc _] _ _]] :=
  @gaussian_basis_normalised Rdefinitions.R (fun _ => 1) 3 [:: 1; 2%:R; 3%:R]
    isT isT (fun _ => ltr01).
by exists B.
Defined.

(** *** The data container *)

Section CovariateFacts.

Variable R : rcfType.

Lemma covariate_from_stim_nth (w : array2 R) M j i k :
  (j < size (rows w))%N -> size (nth [::] (rows w) j) = ncols w ->
  (i + M <= ncols w)%N -> (k < M)%N ->
  let Y := covariate_from_stim w M in
  [/\ size Y = size (rows w),
      size (nth [::] Y j) = ((ncols w).+1 - M)%N,
      size (nth [::] (nth [::] Y j) i) = M
    & nth 0 (nth [::] (nth [::] Y j) i) k
      = nth 0 (nth [::] (rows w) j) (i + (M - 1 - k))%N].
Proof.
move=> lj sz le lk /=; rewrite /covariate_from_stim.
have li : (i < (ncols w).+1 - M)%N.
  by rewrite ltn_subRL addnC -ltnS in le *; rewrite ltnS.
rewrite size_map (nth_map [::]) // size_map size_iota.
rewrite (nth_map 0%N) ?size_iota // nth_iota // add0n.
set r := nth [::] (rows w) j.
have szt : size (take M (drop i r)) = M.
  rewrite size_take size_drop sz.
  case: (ltnP M (ncols w - i)) => // ge.
  by apply/eqP; rewrite eqn_leq ge /= leq_subRL ?(leq_trans (leq_addr _ _) le) // addnC.
split=> //; first by rewrite size_rev.
rewrite nth_rev szt // nth_take; first by rewrite ltn_subrL (leq_trans _ lk).
by rewrite nth_drop -subnDA add1n.
Qed.

End CovariateFacts.

Section LoadFacts.

Variable R : rcfType.
Variable key : eqType.
Variables (M B : nat).

Implicit Types (s : store key) (self : REG_Data R key M B).

Lemma store_get_append s a k :
  store_get (store_append s a k) a = rcons (store_get s a) k.
Proof. by rewrite /store_get /store_append nth_set_nth /= eqxx. Qed.

Lemma store_get_append_other s a a' k :
  a' != a -> store_get (store_append s a k) a' = store_get s a'.
Proof. by move=> h; rewrite /store_get /store_append nth_set_nth /= (negbTE h). Qed.

Lemma covariate_from_stim_shape (w : array2 R) :
  (0 < size (rows w))%N -> (M <= ncols w)%N ->
  let Y := covariate_from_stim w M in
  [/\ Y != [::], head [::] Y != [::]
    & size (head [::] Y) = ((ncols w).+1 - M)%N].
Proof.
rewrite /covariate_from_stim; case: (rows w) => [|r rs] //= _ le.
rewrite size_map size_iota; split=> //.
rewrite -size_eq0 size_map size_iota -lt0n subn_gt0.
by rewrite ltnS.
Qed.

Lemma load_ok s self k (meg : array2 R) tstep_meg (w : array2 R) :
  (0 < size (rows w))%N -> (M <= ncols w)%N ->
  exists s' self' m c,
    [/\ load s self k meg tstep_meg w = (s', self', None),
        store_get s' (datakeys self')
        = rcons (store_get s (datakeys self)) k,
        meg_ self' k = Some m /\ ncols m = (ncols meg - (M - 1))%N,
        covariates_ self' k = Some c /\
        size (rows c) = ((ncols w).+1 - M)%N
      & forall i, (i < (ncols w).+1 - M)%N ->
          nth [::] (rows c) i
          = flatten [seq [seq np_true_divide v
                                 (Num.sqrt (ncols meg - (M - 1))%:R)
                             | v <- dot_row (nth [::] X i) (basis self)]
                        | X <- covariate_from_stim w M]].
Proof.
move=> r0 le; rewrite /load.
have [/negbTE -> /negbTE -> szh] := covariate_from_stim_shape r0 le.
rewrite /=; do 4!eexists; split; first by [].
- by rewrite /= store_get_append.
- by rewrite /= /dict_set eqxx; split.
- by rewrite /= /dict_set eqxx; split=> //=; rewrite size_map size_iota szh.
- by move=> i li; rewrite /= (nth_mkseq_iota [::]) ?szh.
Qed.

Lemma all_flatten (X : Type) (p : pred X) (ss : seq (seq X)) :
  all p (flatten ss) = all (all p) ss.
Proof. by elim: ss => [|x ss IH] //=; rewrite all_cat IH. Qed.

Lemma iter_keyerror s self k :
  k \in store_get s (datakeys self) -> covariates_ self k = None ->
  REG_Data_iter s self = Raise KeyError.
Proof.
rewrite /REG_Data_iter; elim: (store_get _ _) => [|k' ks IH] //=.
rewrite inE => /orP [/eqP <-|kin] cn.
  by rewrite cn; case: (meg_ self k).
case: (meg_ self k') => [m|] //=; case: (covariates_ self k') => [c|] //=.
by rewrite IH.
Qed.

Lemma load_fail s self k (meg : array2 R) tstep_meg (w : array2 R) :
  (0 < M)%N -> (size (rows w) == 0%N) || (ncols w < M)%N ->
  exists s' self' m,
    [/\ load s self k meg tstep_meg w = (s', self', Some ValueError),
        store_get s' (datakeys self')
        = rcons (store_get s (datakeys self)) k,
        meg_ self' k = Some m,
        forall k', covariates_ self' k' = covariates_ self k'
      & covariates_ self k = None ->
        REG_Data_iter s' self' = Raise KeyError].
Proof.
move=> M0 bad; rewrite /load.
have -> : (covariate_from_stim w M == [::])
          || (head [::] (covariate_from_stim w M) == [::]).
  rewrite /covariate_from_stim; case: (rows w) bad => [|r rs] //= lt.
  by rewrite -size_eq0 size_map size_iota subn_eq0 lt.
do 3!eexists; split; first by [].
- by rewrite /= store_get_append.
- by rewrite /= /dict_set eqxx.
- by [].
- move=> cn; apply: (@iter_keyerror _ _ k) => //=.
  by rewrite store_get_append mem_rcons mem_head.
Qed.

Lemma load_short_meg s self k (meg : array2 R) tstep_meg (w : array2 R) :
  (0 < M)%N -> (ncols meg < M)%N ->
  (0 < size (rows w))%N -> (M <= ncols w)%N ->
  exists s' self' c,
    [/\ load s self k meg tstep_meg w = (s', self', None),
        covariates_ self' k = Some c,
        (0 < size (rows c))%N
      & all (fun row => all (fun x => ~~ is_finite x) row) (rows c)].
Proof.
move=> M0 short r0 le; rewrite /load.
have [/negbTE -> /negbTE -> szh] := covariate_from_stim_shape r0 le.
have -> : (ncols meg - (M - 1))%N = 0%N.
  by apply/eqP; rewrite subn_eq0 subn1 -ltnS prednK.
rewrite sqrtr0 /=; do 3!eexists; split; first by [].
- by rewrite /= /dict_set eqxx.
- by rewrite /= size_map size_iota szh subn_gt0 ltnS.
- rewrite /= all_map; apply/allP => i _ /=.
  rewrite all_flatten all_map; apply/allP => X _ /=.
  rewrite all_map; apply/allP => v _ /=.
  by rewrite /np_true_divide eqxx /=; case: ifP => // _; case: ifP.
Qed.

End LoadFacts.

Section TimesliceFacts.

Variable R : rcfType.
Variable key : eqType.
Variables (M B : nat).

Implicit Types (s : store key) (self : REG_Data R key M B).

Local Notation dicts :=
  ((key -> option (array2 (npfloat R))) * (key -> option (array2 (npfloat R))))%type.

(** The body of the loop of [timeslice]. *)
Definition slice_step self (idx : seq nat) (nf' : R) (d : dicts) (k : key) :
    result dicts :=
  m <- of_option KeyError (meg_ self k) ;;
  m <- take_cols m idx ;;
  nf <- of_option TypeError (_norm_factor self) ;;
  c <- of_option KeyError (covariates_ self k) ;;
  c <- take_rows c idx ;;
  Ok (dict_set d.1 k (rescale m nf nf'), dict_set d.2 k (rescale c nf nf')).

Lemma store_get_new s a : store_get (rcons s [::]) a = store_get s a.
Proof.
rewrite /store_get nth_rcons; case: ltngtP => // [lt|->].
  by rewrite nth_default // ltnW.
by rewrite nth_default.
Qed.

Lemma slice_loop_frame self idx nf' ks (d d' : dicts) k :
  for_loop (slice_step self idx nf') ks d = Ok d' -> k \notin ks ->
  d'.1 k = d.1 k /\ d'.2 k = d.2 k.
Proof.
elim: ks d => [|k0 ks IH] d; first by case=> <-.
rewrite for_loop_cons inE negb_or.
case E: (slice_step _ _ _ _ _) => [d1|e] //= run /andP [kk0 kin].
have [-> ->] := IH _ run kin.
move: E; rewrite /slice_step.
case: (meg_ self k0) => [m|] //=; case: (take_cols _ _) => [m'|e] //=.
case: (_norm_factor self) => [nf|] //=.
case: (covariates_ self k0) => [c|] //=; case: (take_rows _ _) => [c'|e] //=.
by case=> <- /=; rewrite /dict_set (negbTE kk0).
Qed.

Lemma timeslice_shape s self idx s1 sl :
  timeslice s self idx = Ok (s1, sl) ->
  [/\ s1 = rcons s [::], datakeys sl = datakeys self
    & forall k, k \notin store_get s (datakeys self) ->
        meg_ sl k = None /\ covariates_ sl k = None].
Proof.
rewrite /timeslice /REG_Data_new /= store_get_new.
case E: (for_loop _ _ _) => [d|e] //= [<- <-] /=; split=> // k kin.
by have [/= -> ->] := @slice_loop_frame self idx _ _ _ _ k E kin.
Qed.

Lemma load_store s self k (meg : array2 R) tstep_meg (w : array2 R) :
  (load s self k meg tstep_meg w).1.1 = store_append s (datakeys self) k.
Proof. by rewrite /load; case: ifP. Qed.

Lemma timeslice_alias s self idx s1 sl k (meg : array2 R) tstep_meg
    (w : array2 R) :
  timeslice s self idx = Ok (s1, sl) ->
  k \notin store_get s (datakeys self) ->
  let s2 := (load s1 self k meg tstep_meg w).1.1 in
  [/\ datakeys sl = datakeys self,
      REG_Data_len s2 sl = (REG_Data_len s1 sl).+1
    & REG_Data_iter s2 sl = Raise KeyError].
Proof.
move=> /timeslice_shape [-> dk none] kin /=.
rewrite load_store /REG_Data_len dk store_get_append size_rcons; split=> //.
apply: (@iter_keyerror _ _ _ _ _ _ k).
  by rewrite dk store_get_append mem_rcons mem_head.
by have [] := none k kin.
Qed.

(** A container all of whose arrays are finite and span [T] time points,
    normalised for that length. *)
Definition finite_array (a : array2 (npfloat R)) : bool :=
  all (fun r => (size r == ncols a) && all (@is_finite R) r) (rows a).

Definition uniform (T : nat) s self : Prop :=
  _norm_factor self = Some (Num.sqrt T%:R) /\
  forall k, k \in store_get s (datakeys self) ->
    exists m c,
      [/\ meg_ self k = Some m, covariates_ self k = Some c,
          ncols m = T /\ size (rows c) = T
        & finite_array m /\ finite_array c].

Lemma rescale_row (nf : R) (r : seq (npfloat R)) :
  nf != 0 -> all (@is_finite R) r ->
  [seq npf_div (npf_mul v nf) nf | v <- r] = r.
Proof.
move=> nf0; elim: r => [|v r IH] //= /andP [fv /IH ->].
case: v fv => //= v _.
by rewrite /np_true_divide nf0 mulfK.
Qed.

Lemma rescale_id (nf : R) (a : array2 (npfloat R)) :
  nf != 0 -> finite_array a -> rescale a nf nf = a.
Proof.
move=> nf0; rewrite /rescale /finite_array; case: a => nc rs /= fin.
congr Array2; elim: rs fin => [|r rs IH] //= /andP [/andP [_ fr] /IH ->].
by rewrite rescale_row.
Qed.

Lemma take_cols_all (a : array2 (npfloat R)) :
  finite_array a -> take_cols a (iota 0 (ncols a)) = Ok a.
Proof.
rewrite /take_cols /finite_array; case: a => nc rs /= fin.
have -> : all (fun t => (t < nc)%N) (iota 0 nc).
  by apply/allP => t; rewrite mem_iota add0n.
rewrite size_iota; congr (Ok (Array2 _ _)).
elim: rs fin => [|r rs IH] //= /andP [/andP [/eqP sz _] /IH ->].
by rewrite -{1}sz map_nth_iota0 // take_size.
Qed.

Lemma take_rows_all (a : array2 (npfloat R)) :
  take_rows a (iota 0 (size (rows a))) = Ok a.
Proof.
rewrite /take_rows; case: a => nc rs /=.
have -> : all (fun t => (t < size rs)%N) (iota 0 (size rs)).
  by apply/allP => t; rewrite mem_iota add0n.
by rewrite map_nth_iota0 // take_size.
Qed.

Lemma slice_loop_full T s self ks (d : dicts) :
  (0 < T)%N -> uniform T s self ->
  (forall k, k \in ks -> k \in store_get s (datakeys self)) ->
  exists d' : dicts,
    [/\ for_loop (slice_step self (iota 0 T) (Num.sqrt T%:R)) ks d = Ok d',
        forall k, k \in ks ->
          d'.1 k = meg_ self k /\ d'.2 k = covariates_ self k
      & forall k, k \notin ks -> d'.1 k = d.1 k /\ d'.2 k = d.2 k].
Proof.
move=> T0 [nfE uni]; elim: ks d => [|k0 ks IH] d sub; first by exists d.
have [m [c [hm hc [nc sz] [fm fc]]]] := uni k0 (sub _ (mem_head _ _)).
have nf0 : Num.sqrt T%:R != 0 :> R by rewrite sqrtr_eq0 -ltNge ltr0n.
have stepE : slice_step self (iota 0 T) (Num.sqrt T%:R) d k0
              = Ok (dict_set d.1 k0 m, dict_set d.2 k0 c).
  rewrite /slice_step hm /= -{1}nc take_cols_all //= nfE /= hc /=.
  by rewrite -{1}sz take_rows_all /= !rescale_id.
rewrite for_loop_cons stepE /=.
have [|d' [run inks outks]] :=
  IH (dict_set d.1 k0 m, dict_set d.2 k0 c).
  by move=> k kin; apply: sub; rewrite inE kin orbT.
exists d'; split=> // k.
  rewrite inE; case: (boolP (k \in ks)) => [kin _|kout]; first exact: inks.
  rewrite orbF => /eqP ke; rewrite ke in kout *.
  have [-> ->] := outks _ kout.
  by rewrite /= /dict_set eqxx hm hc.
rewrite inE negb_or => /andP [kk0 kout].
by have [-> ->] := outks _ kout; rewrite /= /dict_set (negbTE kk0).
Qed.

Lemma timeslice_full T s self :
  (0 < T)%N -> uniform T s self ->
  exists s1 sl,
    [/\ timeslice s self (iota 0 T) = Ok (s1, sl),
        _norm_factor sl = _norm_factor self
      & forall k, k \in store_get s (datakeys self) ->
          meg_ sl k = meg_ self k /\ covariates_ sl k = covariates_ self k].
Proof.
move=> T0 uni; rewrite /timeslice /REG_Data_new /= store_get_new size_iota.
have [d' [run inks _]] :=
  @slice_loop_full T s self (store_get s (datakeys self))
    (fun=> None, fun=> None) T0 uni (fun k h => h).
rewrite -/(slice_step self (iota 0 T) (Num.sqrt T%:R)) run /=.
do 2!eexists; split; first by [].
  by case: uni => [-> _].
by move=> k /inks.
Qed.

End TimesliceFacts.

(** X24. The covariate array is the stimulus read backwards through a
    sliding window: for a (cases, time) stimulus array, [covariate_from_stim]
    returns one list per case, of [time + 1 - M] windows of length [M],
    and entry [k] of window [i] of case [j] is the stimulus of case [j] at
    time [i + M - 1 - k]. *)
Theorem covariate_from_stim_windows (R : rcfType) (w : array2 R) M j i k :
  (j < size (rows w))%N -> size (nth [::] (rows w) j) = ncols w ->
  (i + M <= ncols w)%N -> (k < M)%N ->
  let Y := covariate_from_stim w M in
  [/\ size Y = size (rows w),
      size (nth [::] Y j) = ((ncols w).+1 - M)%N,
      size (nth [::] (nth [::] Y j) i) = M
    & nth 0 (nth [::] (nth [::] Y j) i) k
      = nth 0 (nth [::] (rows w) j) (i + (M - 1 - k))%N].
Proof. exact: covariate_from_stim_nth. Qed.

(** A stimulus of one case and three time points, windows of length 2. *)
Definition ex_stim : array2 Rdefinitions.R :=
  Array2 3 [:: [:: 1; 2%:R; 3%:R]].

Lemma covariate_from_stim_windows_witness :
  size (covariate_from_stim ex_stim 2) = 1%N /\
  nth 0 (nth [::] (nth [::] (covariate_from_stim ex_stim 2) 0) 1) 0
  = nth 0 (nth [::] (rows ex_stim) 0) 2.
Proof.
have [h1 _ _ h4] :=
  @covariate_from_stim_windows Rdefinitions.R ex_stim 2 0 1 0
    isT erefl isT isT.
by split; [exact: h1 | exact: h4].
Defined.

(** X25. [load] succeeds as soon as the stimulus has a case and at least
    [filter_length] time points.  It does not look at the keys already
    present nor at the length of the sensor data: the key is appended to
    [datakeys] even when it is there already, [meg[key]] gets
    [time_meg - (M - 1)] columns and [covariates[key]] gets
    [time_stim + 1 - M] rows, row [i] being the windows [i] of all cases
    times the basis, divided by the square root of the number of columns
    of [meg[key]]. *)
Theorem load_succeeds (R : rcfType) (key : eqType) M B
    (s : store key) (self : REG_Data R key M B) (k : key)
    (meg : array2 R) (tstep_meg : R) (w : array2 R) :
  (0 < M)%N -> (0 < size (rows w))%N -> (M <= ncols w)%N ->
  exists s' self' m c,
    [/\ load s self k meg tstep_meg w = (s', self', None),
        store_get s' (datakeys self')
        = rcons (store_get s (datakeys self)) k,
        meg_ self' k = Some m /\ ncols m = (ncols meg - (M - 1))%N,
        covariates_ self' k = Some c /\
        size (rows c) = ((ncols w).+1 - M)%N
      & forall i, (i < (ncols w).+1 - M)%N ->
          nth [::] (rows c) i
          = flatten [seq [seq np_true_divide v
                                 (Num.sqrt (ncols meg - (M - 1))%:R)
                             | v <- dot_row (nth [::] X i) (basis self)]
                        | X <- covariate_from_stim w M]].
Proof. by move=> _; apply: load_ok. Qed.

(** A container for filters of length 2 with one atom, holding the key
    [tt] already, and sensor data of one sensor. *)
Definition ex_container : REG_Data Rdefinitions.R unit 2 1 :=
  {| basis := const_mx 1;
     covariates_ := fun _ => Some (Array2 1 [:: [:: Finite 1]]);
     meg_ := fun _ => Some (Array2 1 [:: [:: Finite 1]]);
     datakeys := 0; tstep := Some 1;
     _norm_factor := Some (Num.sqrt 1%:R);
     _n_predictor_variables := 1 |}.

Definition ex_store : store unit := [:: [:: tt]].

Definition ex_meg : array2 Rdefinitions.R := Array2 3 [:: [:: 1; 1; 1]].

(** Loading the key the example container holds already. *)
Lemma load_succeeds_witness :
  exists s' self',
    load ex_store ex_container tt ex_meg 1 ex_stim = (s', self', None) /\
    store_get s' (datakeys self') = [:: tt; tt].
Proof.
have [s' [self' [m [c [run keys _ _ _]]]]] :=
  @load_succeeds Rdefinitions.R unit 2 1 ex_store ex_container tt ex_meg 1
    ex_stim isT isT isT.
by exists s', self'; split; [exact: run | exact: keys].
Defined.

(** X26. [load] with a stimulus without case or shorter than
    [filter_length] raises [ValueError], but not before it has appended the
    key to [datakeys] and stored [meg[key]]; [covariates] is left as it
    was, so that iterating over the container raises [KeyError] when the
    key was new. *)
Theorem load_failure_leaves_key (R : rcfType) (key : eqType) M B
    (s : store key) (self : REG_Data R key M B) (k : key)
    (meg : array2 R) (tstep_meg : R) (w : array2 R) :
  (0 < M)%N -> (size (rows w) == 0%N) || (ncols w < M)%N ->
  exists s' self' m,
    [/\ load s self k meg tstep_meg w = (s', self', Some ValueError),
        store_get s' (datakeys self')
        = rcons (store_get s (datakeys self)) k,
        meg_ self' k = Some m,
        forall k', covariates_ self' k' = covariates_ self k'
      & covariates_ self k = None ->
        REG_Data_iter s' self' = Raise KeyError].
Proof. exact: load_fail. Qed.

(** A stimulus shorter than the filter. *)
Lemma load_failure_leaves_key_witness :
  exists s' self',
    load ex_store ex_container tt ex_meg 1 (Array2 1 [:: [:: 1]])
    = (s', self', Some ValueError) /\
    store_get s' (datakeys self') = [:: tt; tt].
Proof.
have [s' [self' [m [run keys _ _ _]]]] :=
  @load_failure_leaves_key Rdefinitions.R unit 2 1 ex_store ex_container tt
    ex_meg 1 (Array2 1 [:: [:: 1]]) isT isT.
by exists s', self'; split; [exact: run | exact: keys].
Defined.

(** X27. When the sensor data has fewer time points than [filter_length]
    and the stimulus has enough of them, [load] raises nothing and stores a
    covariate array with at least one row, all of whose entries are
    infinite or NaN (they are divided by [sqrt(0)]). *)
Theorem load_short_meg_nonfinite (R : rcfType) (key : eqType) M B
    (s : store key) (self : REG_Data R key M B) (k : key)
    (meg : array2 R) (tstep_meg : R) (w : array2 R) :
  (0 < M)%N -> (ncols meg < M)%N ->
  (0 < size (rows w))%N -> (M <= ncols w)%N ->
  exists s' self' c,
    [/\ load s self k meg tstep_meg w = (s', self', None),
        covariates_ self' k = Some c,
        (0 < size (rows c))%N
      & all (fun row => all (fun x => ~~ is_finite x) row) (rows c)].
Proof. exact: load_short_meg. Qed.

(** Sensor data of one time point, shorter than the filter. *)
Lemma load_short_meg_nonfinite_witness :
  exists s' self' c,
    [/\ load ex_store ex_container tt (Array2 1 [:: [:: 1]]) 1 ex_stim
        = (s', self', None),
        covariates_ self' tt = Some c
      & all (fun row => all (fun x => ~~ is_finite x) row) (rows c)].
Proof.
have [s' [self' [c [run hc _ nf]]]] :=
  @load_short_meg_nonfinite Rdefinitions.R unit 2 1 ex_store ex_container tt
    (Array2 1 [:: [:: 1]]) 1 ex_stim isT isT isT isT.
by exists s', self', c; split; [exact: run | exact: hc | exact: nf].
Defined.

(** X28. A time slice shares the list [datakeys] with the container it was
    taken from: loading a new key into the container afterwards makes the
    slice one trial longer, and iterating over the slice raises
    [KeyError]. *)
Theorem timeslice_shares_datakeys (R : rcfType) (key : eqType) M B
    (s s1 : store key) (self sl : REG_Data R key M B) (idx : seq nat)
    (k : key) (meg : array2 R) (tstep_meg : R) (w : array2 R) :
  timeslice s self idx = Ok (s1, sl) ->
  k \notin store_get s (datakeys self) ->
  let s2 := (load s1 self k meg tstep_meg w).1.1 in
  [/\ datakeys sl = datakeys self,
      REG_Data_len s2 sl = (REG_Data_len s1 sl).+1
    & REG_Data_iter s2 sl = Raise KeyError].
Proof. exact: timeslice_alias. Qed.

(** X29. On a container whose arrays are finite and span [T > 0] time
    points, with [_norm_factor = sqrt(T)], the time slice at all the indices
    [0, ..., T - 1] holds the same [meg] and [covariates] arrays for every
    key, and the same [_norm_factor]. *)
Theorem timeslice_all_times (R : rcfType) (key : eqType) M B T
    (s : store key) (self : REG_Data R key M B) :
  (0 < T)%N -> uniform T s self ->
  exists s1 sl,
    [/\ timeslice s self (iota 0 T) = Ok (s1, sl),
        _norm_factor sl = _norm_factor self
      & forall k, k \in store_get s (datakeys self) ->
          meg_ sl k = meg_ self k /\ covariates_ sl k = covariates_ self k].
Proof. exact: timeslice_full. Qed.

Lemma ex_uniform : uniform 1 ex_store ex_container.
Proof.
split=> // k _.
by exists (Array2 1 [:: [:: Finite 1]]), (Array2 1 [:: [:: Finite 1]]).
Qed.

(** The example container sliced at its only time point. *)
Lemma timeslice_all_times_witness :
  exists s1 sl,
    timeslice ex_store ex_container (iota 0 1) = Ok (s1, sl) /\
    meg_ sl tt = meg_ ex_container tt.
Proof.
have [s1 [sl [run _ same]]] :=
  @timeslice_all_times Rdefinitions.R unit 2 1 1 ex_store ex_container
    isT ex_uniform.
exists s1, sl; split; first exact: run.
by have [] := same tt isT.
Defined.

(** A slice of an empty container, and a load into the container
    afterwards. *)
Definition ex_empty : store unit * REG_Data Rdefinitions.R unit 2 1 :=
  REG_Data_new (const_mx 1) [::].

Lemma ex_empty_slice :
  exists s1 sl, timeslice ex_empty.1 ex_empty.2 [::] = Ok (s1, sl).
Proof. by rewrite /timeslice /for_loop /=; do 2!eexists. Qed.

Lemma timeslice_shares_datakeys_witness :
  exists s1 sl,
    timeslice ex_empty.1 ex_empty.2 [::] = Ok (s1, sl) /\
    REG_Data_iter (load s1 ex_empty.2 tt ex_meg 1 ex_stim).1.1 sl
    = Raise KeyError.
Proof.
have [s1 [sl run]] := ex_empty_slice.
have [_ _ it] :=
  @timeslice_shares_datakeys Rdefinitions.R unit 2 1 ex_empty.1 s1
    ex_empty.2 sl [::] tt ex_meg 1 ex_stim run isT.
by exists s1, sl; split; [exact: run | exact: it].
Defined.

(** *** The first objective of a fit *)

Section InitIterFacts.

Variable R : rcfType.
Variable key : eqType.
Variables (K N P : nat).
Variable o : orientation_t.

Lemma init_iter_good (eta : R) (init_sigma_b : 'M[R]_K)
    (data : seq (trial R key K P)) :
  posdef init_sigma_b ->
  all_trials
    (fun tr => good (fun _ => True)
                 (__init__iter N o eta init_sigma_b data).1 (trial_key tr))
    data.
Proof.
move=> pd.
have h (tr : trial R key K P) (d : seq (trial R key K P)) :
    trial_key tr \in [seq trial_key t | t <- d] ->
    good (fun _ => True) (__init__iter N o eta init_sigma_b d).1 (trial_key tr).
  move=> kin; exists [ffun _ => eta *: 1%:M], init_sigma_b.
  by split=> //=; rewrite kin.
have gen : forall d : seq (trial R key K P),
    (forall tr : trial R key K P,
       trial_key tr \in [seq trial_key t | t <- d] ->
       trial_key tr \in [seq trial_key t | t <- data]) ->
    all_trials
      (fun tr => good (fun _ => True)
                   (__init__iter N o eta init_sigma_b data).1 (trial_key tr)) d.
  elim=> [|tr d IH] //= sub; split.
    by apply: h; apply: (sub tr); rewrite mem_head.
  by apply: IH => tr' kin; apply: sub; rewrite inE kin orbT.
exact: gen.
Qed.

End InitIterFacts.

(** X30. After [__init__iter(data)] every key of [data] has its source
    covariances set to [eta] times the identity and its data covariance to
    [init_sigma_b]; when [init_sigma_b] is positive definite the first
    [_construct_f] of a fit therefore succeeds. *)
Theorem init_iter_construct_f (R : rcfType) (key : eqType) K N P
    (o : orientation_t) (G : 'M[R]_(K, N * orientation o)) (eta : R)
    (init_sigma_b : 'M[R]_K) (data : seq (trial R key K P)) :
  posdef init_sigma_b ->
  let self := (__init__iter N o eta init_sigma_b data).1 in
  (forall k, k \in [seq trial_key t | t <- data] ->
     Gamma self k = Some [ffun _ => eta *: 1%:M] /\
     Sigma_b self k = Some init_sigma_b) /\
  exists c, _construct_f G self data = Ok c.
Proof.
move=> pd /=; split; first by move=> k ->.
by apply: construct_f_ok; apply: init_iter_good.
Qed.

(** The one-trial example, fixed orientation. *)
Lemma init_iter_construct_f_witness :
  exists c,
    _construct_f (const_mx 1 : 'M[Rdefinitions.R]_(1, 1 * orientation fixed))
      (__init__iter 1 fixed 1 1%:M [:: ex_trial]).1 [:: ex_trial] = Ok c.
Proof.
have [_ h] :=
  @init_iter_construct_f Rdefinitions.R unit 1 1 1 fixed (const_mx 1) 1 1%:M
    [:: ex_trial] (posdef1 _ _).
exact: h.
Defined.
